(** * caddy-i18n-template-ext: the translation resolver, verified

    A shallow embedding of [i18n.go]: the [I18n] module instance, the
    [i18nTranslate] template function returned by
    [CustomTemplateFunctions], [interpolateTranslations], [loadDictionary]
    and [Provision], together with the parts of the Go standard library
    they call ([strings], [strconv], [regexp], [fmt], [os],
    [encoding/json]), each modelled by its documented behaviour.

    Go strings are byte strings; they are [string] here (a list of
    [ascii], i.e. of bytes).  The placeholder syntax is pure ASCII, so
    working on bytes agrees with Go's rune-wise regexp on every input.
    Go maps are [gmap]s: a nil map and an empty map read alike. *)

From Stdlib Require Import ZArith Ascii String Bool Lia.
From Stdlib Require Import Numbers.DecimalString.
From stdpp Require Import base option gmap strings list.

Local Open Scope string_scope.

(** ** Panics

    A Go function either returns or panics.  [result A] is the error monad
    that threads a panic through the calls. *)

Inductive panic : Type :=
| NilDereference      (* invalid memory address or nil pointer dereference *)
| IndexOutOfRange.    (* index out of range *)

Inductive result (A : Type) : Type :=
| Ok (a : A)
| Panic (p : panic).

Arguments Ok {A} a.
Arguments Panic {A} p.

Definition rbind {A B : Type} (m : result A) (k : A -> result B) : result B :=
  match m with
  | Ok a => k a
  | Panic p => Panic p
  end.

Notation "'do' x <- m ; k" := (rbind m (fun x => k))
  (at level 10, x name, m at level 100, k at level 200).

(** ** Byte strings *)

(** [mem c cutset]: the byte [c] occurs in [cutset]. *)
Fixpoint mem (c : ascii) (cutset : string) : bool :=
  match cutset with
  | "" => false
  | String d rest => Ascii.eqb c d || mem c rest
  end.

(** ** Package [strings] *)

Module Strings.

(** [strings.HasPrefix(s, prefix)]. *)
Fixpoint HasPrefix (s prefix : string) : bool :=
  match prefix, s with
  | "", _ => true
  | String p prefix', String c s' => Ascii.eqb c p && HasPrefix s' prefix'
  | String _ _, "" => false
  end.

(** [s[len(prefix):]]. *)
Fixpoint drop (n : nat) (s : string) : string :=
  match n, s with
  | O, _ => s
  | S n', String _ s' => drop n' s'
  | S _, "" => ""
  end.

(** [strings.TrimPrefix(s, prefix)]: [s] without the leading [prefix];
    [s] itself when it does not start with [prefix]. *)
Definition TrimPrefix (s prefix : string) : string :=
  if HasPrefix s prefix then drop (String.length prefix) s else s.

(** [strings.TrimLeft(s, cutset)]. *)
Fixpoint TrimLeft (s cutset : string) : string :=
  match s with
  | "" => ""
  | String c s' => if mem c cutset then TrimLeft s' cutset else s
  end.

(** [strings.TrimRight(s, cutset)]. *)
Fixpoint TrimRight (s cutset : string) : string :=
  match s with
  | "" => ""
  | String c s' =>
      match TrimRight s' cutset with
      | "" => if mem c cutset then "" else String c ""
      | t => String c t
      end
  end.

(** [strings.Trim(s, cutset)]: all leading and trailing bytes of
    [cutset] removed. *)
Definition Trim (s cutset : string) : string :=
  TrimRight (TrimLeft s cutset) cutset.

End Strings.

(** ** Package [strconv] *)

(** The width of Go's [int] depends on the platform. *)
Inductive arch : Type := Arch32 | Arch64.

Definition intSize (a : arch) : Z :=
  match a with Arch32 => 32 | Arch64 => 64 end.

Definition maxInt (a : arch) : Z := 2 ^ (intSize a - 1) - 1.
Definition minInt (a : arch) : Z := - 2 ^ (intSize a - 1).

Definition is_digit (c : ascii) : bool :=
  (48 <=? nat_of_ascii c)%nat && (nat_of_ascii c <=? 57)%nat.

Fixpoint all_digits (s : string) : bool :=
  match s with
  | "" => true
  | String c s' => is_digit c && all_digits s'
  end.

(** The number a run of decimal digits denotes, most significant digit
    first: [n = n*10 + int(ch - '0')] for each byte. *)
Fixpoint decimal_from (acc : Z) (s : string) : Z :=
  match s with
  | "" => acc
  | String c s' => decimal_from (acc * 10 + (Z.of_nat (nat_of_ascii c) - 48)) s'
  end.

Definition decimal (s : string) : Z := decimal_from 0 s.

Module Strconv.

Inductive NumError : Type :=
| ErrSyntax     (* invalid syntax *)
| ErrRange.     (* value out of range *)

(** [strconv.Atoi(s)]: an optional sign, then one or more decimal
    digits.  Anything else is [ErrSyntax] with value 0; a number outside
    [int] is [ErrRange] with the nearest bound as value. *)
Definition Atoi (a : arch) (s : string) : Z * option NumError :=
  let '(neg, body) :=
    match s with
    | String "-" s' => (true, s')
    | String "+" s' => (false, s')
    | _ => (false, s)
    end in
  match body with
  | "" => (0, Some ErrSyntax)
  | _ =>
      if all_digits body then
        let n := if neg then - decimal body else decimal body in
        if n <? minInt a then (minInt a, Some ErrRange)
        else if maxInt a <? n then (maxInt a, Some ErrRange)
        else (n, None)
      else (0, Some ErrSyntax)
  end%Z.

End Strconv.

(** ** Package [regexp], for the one pattern [\{(\d+)\}] *)

Module Regexp.

(** The longest run of digits at the head of [s], and what follows. *)
Fixpoint span_digits (s : string) : string * string :=
  match s with
  | "" => ("", "")
  | String c s' =>
      if is_digit c then
        let '(ds, rest) := span_digits s' in (String c ds, rest)
      else ("", s)
  end.

(** A match of [\{(\d+)\}] that starts at the first byte of [s]: the
    digits of the group and the text after the closing brace.  [\d+] is
    greedy and [\d] is ASCII-only, so the match at a position, if any,
    is unique. *)
Definition match_here (s : string) : option (string * string) :=
  match s with
  | String "{" s' =>
      match span_digits s' with
      | (String d ds, String "}" rest) => Some (String d ds, rest)
      | _ => None
      end
  | _ => None
  end.

(** The text of the match whose group is [ds]. *)
Definition token (ds : string) : string := "{" +:+ ds +:+ "}".

(** The scan of [ReplaceAllStringFunc]: [skip] is the number of bytes
    still covered by the match found last.  Matches are taken leftmost
    first and do not overlap; text between them is copied. *)
Fixpoint replace_from (repl : string -> result string) (skip : nat)
    (src : string) : result string :=
  match src with
  | "" => Ok ""
  | String c rest =>
      match skip with
      | S k => replace_from repl k rest
      | O =>
          match match_here src with
          | Some (ds, _) =>
              do r <- repl (token ds);
              do out <- replace_from repl (S (String.length ds)) rest;
              Ok (r +:+ out)
          | None =>
              do out <- replace_from repl 0 rest;
              Ok (String c out)
          end
      end
  end.

(** [re.ReplaceAllStringFunc(src, repl)] for [re = \{(\d+)\}].  A panic
    of [repl] unwinds through it. *)
Definition ReplaceAllStringFunc (src : string)
    (repl : string -> result string) : result string :=
  replace_from repl 0 src.

End Regexp.

(** ** Errors

    The values of Go's [error] interface that this program meets. *)

Inductive Errno : Type :=
| ENOENT    (* no such file or directory *)
| ENOTDIR   (* not a directory *)
| ELOOP     (* too many levels of symbolic links *)
| EACCES    (* permission denied *)
| EISDIR    (* is a directory *)
| EIO       (* input/output error *)
| EMFILE.   (* too many open files *)

Inductive error : Type :=
| PathError (op path : string) (e : Errno)      (* *fs.PathError *)
| EOF                                           (* io.EOF *)
| ErrUnexpectedEOF                              (* io.ErrUnexpectedEOF *)
| SyntaxError                                   (* *json.SyntaxError *)
| UnmarshalTypeError (val : string)             (* *json.UnmarshalTypeError *)
| ErrDictNotFound (path : string)
    (* fmt.Errorf("dictionary file not found: %s", path) *)
| ErrParseDict (cause : error)
    (* fmt.Errorf("failed to parse JSON dictionary: %w", cause) *)
| ErrLoadDict (cause : error).
    (* fmt.Errorf("failed to load i18n dictionary: %w", cause) *)

(** ** Package [fmt] and the arguments of a template call *)

(** A value of type [interface{}], by its dynamic type. *)
Inductive any : Type :=
| VString (s : string)      (* string *)
| VInt (n : Z)              (* int *)
| VBool (b : bool)          (* bool *)
| VNil                      (* the nil interface value *)
| VOther (text : string).
    (* any other dynamic type (float64, a named string type such as
       template.HTML, a Stringer, ...), with the text fmt prints for it *)

Module Fmt.

(** [fmt.Sprint(a)] of one operand.  [fmt] recovers from a panic of
    the operand's own [String] method, so [Sprint] always returns. *)
Definition Sprint (a : any) : string :=
  match a with
  | VString s => s
  | VInt n => NilZero.string_of_int (Z.to_int n)
  | VBool true => "true"
  | VBool false => "false"
  | VNil => "<nil>"
  | VOther text => text
  end.

End Fmt.

(** ** The module instance *)

(** [sync.RWMutex], as seen by one goroutine: the number of read locks
    held. *)
Record RWMutex : Type := { readerCount : nat }.

Definition RLock (m : RWMutex) : RWMutex :=
  {| readerCount := S (readerCount m) |}.

Definition RUnlock (m : RWMutex) : RWMutex :=
  {| readerCount := Nat.pred (readerCount m) |}.

Inductive Level : Type := InfoLevel | WarnLevel.

(** One structured log event: level, message, string fields. *)
Record Entry : Type := {
  level : Level;
  message : string;
  fields : list (string * string)
}.

(** [*zap.Logger]: the events written so far. *)
Definition Logger : Type := list Entry.

(** The struct [I18n].  [mu] and [logger] are pointers: [None] is nil. *)
Record I18n : Type := {
  DictFile : string;
  translations : gmap string (gmap string string);
  mu : option RWMutex;
  logger : option Logger
}.

Definition with_translations (t : gmap string (gmap string string))
    (i : I18n) : I18n :=
  {| DictFile := DictFile i; translations := t; mu := mu i;
     logger := logger i |}.

Definition with_mu (m : option RWMutex) (i : I18n) : I18n :=
  {| DictFile := DictFile i; translations := translations i; mu := m;
     logger := logger i |}.

Definition with_logger (l : option Logger) (i : I18n) : I18n :=
  {| DictFile := DictFile i; translations := translations i; mu := mu i;
     logger := l |}.

(** [if i.logger != nil { i.logger.<lvl>(msg, fields...) }] *)
Definition log_if_set (lvl : Level) (msg : string)
    (fs : list (string * string)) (i : I18n) : I18n :=
  match logger i with
  | None => i
  | Some sink =>
      with_logger
        (Some (sink ++ [{| level := lvl; message := msg; fields := fs |}])%list)
        i
  end.

(** [i.logger.Info(msg, fields...)], on a logger that is set. *)
Definition log_info (msg : string) (fs : list (string * string))
    (i : I18n) : I18n :=
  log_if_set InfoLevel msg fs i.

(** [args[idx]]: a panic when [idx] is out of range. *)
Definition index (args : list any) (idx : Z) : result any :=
  if (idx <? 0)%Z then Panic IndexOutOfRange
  else match args !! Z.to_nat idx with
       | Some a => Ok a
       | None => Panic IndexOutOfRange
       end.

(** [len(args)], an [int]. *)
Definition len (args : list any) : Z := Z.of_nat (length args).

Section Platform.

Variable platform : arch.

(** The function literal passed to [ReplaceAllStringFunc] in
    [interpolateTranslations]: the replacement for one match. *)
Definition replacement (i : I18n) (lang : string) (args : list any)
    (match_ : string) : result string :=
  let numStr := Strings.Trim match_ "{}" in
  let '(idx, err) := Strconv.Atoi platform numStr in
  if bool_decide (err <> None) || (len args <=? idx)%Z then
    Ok match_
  else
    do arg <- index args idx;
    match arg with
    | VString str =>
        if Strings.HasPrefix str "i18n:" then
          let translationKey := Strings.TrimPrefix str "i18n:" in
          match translations i !! translationKey with
          | Some entry =>
              match entry !! lang with
              | Some val => Ok val
              | None =>
                  match entry !! "en" with
                  | Some val => Ok val
                  | None => Ok translationKey
                  end
              end
          | None => Ok translationKey
          end
        else Ok str
    | _ => Ok (Fmt.Sprint arg)
    end.

(** [func (i *I18n) interpolateTranslations(tmpl, lang string,
    args []interface{}) string] *)
Definition interpolateTranslations (i : I18n) (tmpl lang : string)
    (args : list any) : result string :=
  Regexp.ReplaceAllStringFunc tmpl (replacement i lang args).

(** What the closure returns: [(string, error)]. *)
Definition returned : Type := string * option error.

(** The body of the [i18nTranslate] closure, run with the read lock
    held.  The instance comes back with the log events added. *)
Definition translate_locked (i : I18n) (key lang : string)
    (args : list any) : I18n * result returned :=
  let finish (i' : I18n) (val : string) : I18n * result returned :=
    if (0 <? len args)%Z then
      (i', do val' <- interpolateTranslations i' val lang args;
           Ok (val', None))
    else (i', Ok (val, None)) in
  match translations i !! key with
  | None =>
      (log_if_set WarnLevel
         "translation key not found, using key as fallback"
         [("key", key)] i,
       Ok (key, None))
  | Some entry =>
      match entry !! lang with
      | Some val => finish i val
      | None =>
          match entry !! "en" with
          | None =>
              (log_if_set WarnLevel
                 "no translation for requested language or 'en', using key as fallback"
                 [("key", key); ("requested_lang", lang)] i,
               Ok (key, None))
          | Some val =>
              finish
                (log_if_set InfoLevel
                   "requested language not found, falling back to 'en'"
                   [("key", key); ("requested_lang", lang)] i)
                val
          end
      end
  end.

(** The template function ["i18nTranslate"] of
    [CustomTemplateFunctions]: [i.mu.RLock()], the deferred
    [i.mu.RUnlock()], and the body between them.  A nil [mu] panics at
    the first line. *)
Definition i18nTranslate (i : I18n) (key lang : string)
    (args : list any) : I18n * result returned :=
  match mu i with
  | None => (i, Panic NilDereference)
  | Some m =>
      let '(i', r) :=
        translate_locked (with_mu (Some (RLock m)) i) key lang args in
      (with_mu (option_map RUnlock (mu i')) i', r)
  end.

End Platform.

(** ** Package [encoding/json] *)

(** A JSON value.  Object members keep their order and their
    duplicates. *)
#[warnings="-register-all"] Inductive JSON : Type :=
| JNull
| JBool (b : bool)
| JNumber (literal : string)
| JString (s : string)
| JArray (elems : list JSON)
| JObject (members : list (string * JSON)).

(** What a [json.Decoder] finds at the head of its input. *)
Inductive Stream : Type :=
| Value (v : JSON)
    (* a complete JSON value; [Decode] reads no further than its end *)
| Invalid
    (* a byte that no JSON value has at that place *)
| Ends (inside_value : bool)
    (* the input ends: after white space only, or inside a value *)
| Fails (e : Errno).
    (* a read fails before a value is complete *)

Module Json.

(** The name [UnmarshalTypeError] gives to a JSON value. *)
Definition kind_name (v : JSON) : string :=
  match v with
  | JNull => "null"
  | JBool _ => "bool"
  | JNumber _ => "number"
  | JString _ => "string"
  | JArray _ => "array"
  | JObject _ => "object"
  end.

(** [d.saveError]: the first error is kept, decoding goes on. *)
Definition saveError (saved new : option error) : option error :=
  match saved with
  | Some e => Some e
  | None => new
  end.

(** A JSON value into a Go [string] that holds [""]: a string is
    stored, null has no effect, anything else is a type error. *)
Definition unmarshal_string (v : JSON) : string * option error :=
  match v with
  | JString s => (s, None)
  | JNull => ("", None)
  | _ => ("", Some (UnmarshalTypeError (kind_name v)))
  end.

(** A JSON value into a nil [map[string]string]: an object fills a
    fresh map, a later duplicate of a key wins; null leaves the map nil;
    anything else is a type error. *)
Definition unmarshal_entry (v : JSON) : gmap string string * option error :=
  match v with
  | JObject members =>
      fold_left
        (fun '(m, saved) '(lang, leaf) =>
           let '(text, err) := unmarshal_string leaf in
           (<[lang := text]> m, saveError saved err))
        members (∅, None)
  | JNull => (∅, None)
  | _ => (∅, Some (UnmarshalTypeError (kind_name v)))
  end.

(** A JSON value into the [map[string]map[string]string] [m]: an object
    adds its members to [m], each value decoded into a fresh element;
    null sets the map to nil; anything else is a type error and leaves
    [m] as it is. *)
Definition unmarshal (v : JSON) (m : gmap string (gmap string string)) :
    gmap string (gmap string string) * option error :=
  match v with
  | JObject members =>
      fold_left
        (fun '(m', saved) '(key, val) =>
           let '(entry, err) := unmarshal_entry val in
           (<[key := entry]> m', saveError saved err))
        members (m, None)
  | JNull => (∅, None)
  | _ => (m, Some (UnmarshalTypeError (kind_name v)))
  end.

(** [json.NewDecoder(file).Decode(&m)] for the file [name]. *)
Definition Decode (name : string) (input : Stream)
    (m : gmap string (gmap string string)) :
    gmap string (gmap string string) * option error :=
  match input with
  | Value v => unmarshal v m
  | Invalid => (m, Some SyntaxError)
  | Ends false => (m, Some EOF)
  | Ends true => (m, Some ErrUnexpectedEOF)
  | Fails e => (m, Some (PathError "read" name e))
  end.

End Json.

(** ** Package [os] *)

(** What [os.Open] meets at a path: a failure with the errno of the
    system call, whichever it is, or something that opens and then
    reads as [content].  A directory opens; its reads fail with
    [EISDIR]. *)
Inductive Node : Type :=
| Unopenable (e : Errno)
| Opens (content : Stream).

(** The file system, path by path, as [os.Open] meets it.  A listed
    path fails or opens as listed; a path that is not listed fails with
    [ENOENT].  The errno says nothing more about the path: one below a
    file is listed with [ENOTDIR] though nothing exists there, a
    dangling symbolic link with [ENOENT] though the link exists. *)
Definition FileSystem : Type := gmap string Node.

Module Os.

(** [os.Open(name)]: the content to read, or a [*PathError]. *)
Definition Open (fs : FileSystem) (name : string) : Stream + error :=
  match fs !! name with
  | None => inr (PathError "open" name ENOENT)
  | Some (Unopenable e) => inr (PathError "open" name e)
  | Some (Opens content) => inl content
  end.

End Os.

(** [errors.Is(err, fs.ErrNotExist)]: [Is] follows the [%w] wrappers
    and [*PathError] down to the errno, which is [ErrNotExist] when it
    is [ENOENT]. *)
Fixpoint Is_ErrNotExist (err : error) : bool :=
  match err with
  | PathError _ _ ENOENT => true
  | ErrParseDict cause => Is_ErrNotExist cause
  | ErrLoadDict cause => Is_ErrNotExist cause
  | _ => false
  end.

(** ** Loading the dictionary *)

(** [func (i *I18n) loadDictionary() error] *)
Definition loadDictionary (fs : FileSystem) (i : I18n) :
    I18n * option error :=
  match Os.Open fs (DictFile i) with
  | inr err =>
      if Is_ErrNotExist err then (i, Some (ErrDictNotFound (DictFile i)))
      else (i, Some err)
  | inl file =>
      let '(t, err) := Json.Decode (DictFile i) file (translations i) in
      match err with
      | Some e => (with_translations t i, Some (ErrParseDict e))
      | None => (with_translations t i, None)
      end
  end.

(** [func (i *I18n) Provision(ctx caddy.Context) error]; [ctx_logger]
    is what [ctx.Logger()] returns. *)
Definition Provision (ctx_logger : Logger) (fs : FileSystem) (i : I18n) :
    I18n * option error :=
  let i1 := with_logger (Some ctx_logger) i in
  let i2 :=
    match mu i1 with
    | None => with_mu (Some {| readerCount := 0 |}) i1
    | Some _ => i1
    end in
  let i3 := with_translations ∅ i2 in
  if negb (String.eqb (DictFile i3) "") then
    match loadDictionary fs i3 with
    | (i4, Some err) => (i4, Some (ErrLoadDict err))
    | (i4, None) =>
        (log_info "i18n dictionary loaded successfully"
           [("dict_file", DictFile i4)] i4,
         None)
    end
  else (i3, None).

(** ** Module registration *)

(** [func (I18n) CaddyModule() caddy.ModuleInfo]: the module ID, and
    [New], which is [new(I18n)], the zero value of the struct. *)
Definition CaddyModule_ID : string :=
  "http.handlers.templates.functions.i18n".

Definition CaddyModule_New : I18n :=
  {| DictFile := ""; translations := ∅; mu := None; logger := None |}.

(** ** Package [caddyfile]: tokens and the dispenser

    The host hands [UnmarshalCaddyfile] a [*caddyfile.Dispenser]: the
    tokens of the configuration block, a cursor into them and a nesting
    level.  Its methods are modelled as Caddy documents and implements
    them; each returns its result and the dispenser after the call. *)

Module Caddyfile.

(** [caddyfile.Token], with the fields that decide whether two tokens
    are on one line. *)
Record Token : Type := {
  File : string;
  imports : list string;
  Line : Z;
  Text : string;
  heredocMarker : string
}.

(** [strings.Count(text, "\n")] *)
Fixpoint count_newlines (text : string) : Z :=
  match text with
  | "" => 0
  | String c rest =>
      ((if Ascii.eqb c "010" then 1 else 0) + count_newlines rest)%Z
  end.

(** [func (t Token) NumLineBreaks() int] *)
Definition NumLineBreaks (t : Token) : Z :=
  let lineBreaks := count_newlines (Text t) in
  if negb (String.eqb (heredocMarker t) "") then (lineBreaks + 2)%Z
  else lineBreaks.

(** [isNextOnNewLine(t1, t2)]: another file, another import chain, or a
    line after the one on which [t1] ends. *)
Definition isNextOnNewLine (t1 t2 : Token) : bool :=
  if negb (String.eqb (File t1) (File t2)) then true
  else if negb (length (imports t1) =? length (imports t2))%nat then true
  else if existsb (fun '(im1, im2) => negb (String.eqb im1 im2))
            (combine (imports t1) (imports t2)) then true
  else (Line t1 + NumLineBreaks t1 <? Line t2)%Z.

Record Dispenser : Type := {
  tokens : list Token;
  cursor : Z;
  nesting : Z
}.

(** [caddyfile.NewDispenser(tokens)] *)
Definition NewDispenser (ts : list Token) : Dispenser :=
  {| tokens := ts; cursor := -1; nesting := 0 |}.

Definition set_cursor (c : Z) (d : Dispenser) : Dispenser :=
  {| tokens := tokens d; cursor := c; nesting := nesting d |}.

Definition set_nesting (n : Z) (d : Dispenser) : Dispenser :=
  {| tokens := tokens d; cursor := cursor d; nesting := n |}.

(** [len(d.tokens)] *)
Definition count (d : Dispenser) : Z := Z.of_nat (length (tokens d)).

(** [d.tokens[c]], where the caller has checked the bounds. *)
Definition token_at (d : Dispenser) (c : Z) : option Token :=
  if (c <? 0)%Z then None else tokens d !! Z.to_nat c.

(** [func (d *Dispenser) Val() string] *)
Definition Val (d : Dispenser) : string :=
  if (cursor d <? 0)%Z || (count d <=? cursor d)%Z then ""
  else match token_at d (cursor d) with
       | Some t => Text t
       | None => ""
       end.

(** [func (d *Dispenser) File() string] and [Line() int] *)
Definition CurrentFile (d : Dispenser) : string :=
  if (cursor d <? 0)%Z || (count d <=? cursor d)%Z then ""
  else match token_at d (cursor d) with
       | Some t => File t
       | None => ""
       end.

Definition CurrentLine (d : Dispenser) : Z :=
  if (cursor d <? 0)%Z || (count d <=? cursor d)%Z then 0%Z
  else match token_at d (cursor d) with
       | Some t => Line t
       | None => 0%Z
       end.

(** [func (d *Dispenser) Next() bool] *)
Definition Next (d : Dispenser) : bool * Dispenser :=
  if (cursor d <? count d - 1)%Z then (true, set_cursor (cursor d + 1) d)
  else (false, d).

(** [func (d *Dispenser) nextOnSameLine() bool]: it moves the cursor
    when it returns true. *)
Definition nextOnSameLine (d : Dispenser) : bool * Dispenser :=
  if (cursor d <? 0)%Z then (true, set_cursor (cursor d + 1) d)
  else if (count d - 1 <=? cursor d)%Z then (false, d)
  else
    match token_at d (cursor d), token_at d (cursor d + 1) with
    | Some curr, Some next =>
        if negb (isNextOnNewLine curr next) then
          (true, set_cursor (cursor d + 1) d)
        else (false, d)
    | _, _ => (false, d)
    end.

(** [func (d *Dispenser) NextArg() bool] *)
Definition NextArg (d : Dispenser) : bool * Dispenser :=
  let '(same, d1) := nextOnSameLine d in
  if negb same then (false, d1)
  else if String.eqb (Val d1) "{" then
    (false, set_cursor (cursor d1 - 1) d1)
  else (true, d1).

(** [func (d *Dispenser) Nesting() int] *)
Definition Nesting (d : Dispenser) : Z := nesting d.

(** [func (d *Dispenser) NextBlock(initialNestingLevel int) bool].  The
    two conditions of the first branch call [nextOnSameLine], which
    moves the cursor when it succeeds; the second condition is only
    reached when the first is false. *)
Definition NextBlock (initialNestingLevel : Z) (d : Dispenser) :
    bool * Dispenser :=
  if (initialNestingLevel <? nesting d)%Z then
    let '(more, d1) := Next d in
    if negb more then (false, d1)
    else
      let opening (d2 : Dispenser) : Dispenser :=
        if String.eqb (Val d2) "{" then
          let '(same, d3) := nextOnSameLine d2 in
          if negb same then set_nesting (nesting d3 + 1) d3 else d3
        else d2 in
      let d4 :=
        if String.eqb (Val d1) "}" then
          let '(same, d2) := nextOnSameLine d1 in
          if negb same then set_nesting (nesting d2 - 1) d2
          else opening d2
        else opening d1 in
      ((initialNestingLevel <? nesting d4)%Z, d4)
  else
    let '(same, d1) := nextOnSameLine d in
    if negb same then (false, d1)
    else if negb (String.eqb (Val d1) "{") then
      (false, set_cursor (cursor d1 - 1) d1)
    else
      let '(_, d2) := Next d1 in
      if String.eqb (Val d2) "}" then (false, d2)
      else (true, set_nesting (nesting d2 + 1) d2).

(** The errors a dispenser makes, each with the place of the current
    token: [d.ArgErr()] in its two forms, and [d.Errf] with the message
    of [UnmarshalCaddyfile]. *)
Inductive ConfigError : Type :=
| UnexpectedBrace (file : string) (line : Z)
    (* unexpected token '{', expecting argument *)
| WrongArgumentCount (after file : string) (line : Z)
    (* wrong argument count or unexpected line ending after '%s' *)
| UnrecognizedProperty (property file : string) (line : Z).
    (* unrecognized i18n config property: %s *)

(** [func (d *Dispenser) ArgErr() error] *)
Definition ArgErr (d : Dispenser) : ConfigError :=
  if String.eqb (Val d) "{" then
    UnexpectedBrace (CurrentFile d) (CurrentLine d)
  else WrongArgumentCount (Val d) (CurrentFile d) (CurrentLine d).

End Caddyfile.

(** ** Reading the configuration block *)

Definition with_DictFile (path : string) (i : I18n) : I18n :=
  {| DictFile := path; translations := translations i; mu := mu i;
     logger := logger i |}.

(** How a loop of [UnmarshalCaddyfile] ends: its condition became
    false, a [return] left the function, or the fuel of the model ran
    out. *)
Inductive LoopEnd : Type :=
| Finished (i : I18n) (d : Caddyfile.Dispenser)
| Returned (err : Caddyfile.ConfigError) (i : I18n) (d : Caddyfile.Dispenser)
| OutOfFuel.

(** The tokens the cursor has not passed: a bound on the iterations
    left. *)
Definition tokens_left (d : Caddyfile.Dispenser) : nat :=
  Z.to_nat (Caddyfile.count d - Caddyfile.cursor d).

(** The dispenser after a call: the same tokens, the cursor not moved
    back. *)
Definition advanced (d d' : Caddyfile.Dispenser) : Prop :=
  Caddyfile.tokens d' = Caddyfile.tokens d /\ (Caddyfile.cursor d <= Caddyfile.cursor d')%Z.

(** The cursor moved on, over a token that was left. *)
Definition consumed (d d' : Caddyfile.Dispenser) : Prop :=
  (Caddyfile.cursor d < Caddyfile.cursor d')%Z /\ (Caddyfile.cursor d < Caddyfile.count d)%Z.

(** The inner loop,
    [for nesting := d.Nesting(); d.NextBlock(nesting); { switch ... }]. *)
Fixpoint block_loop (fuel : nat) (nesting : Z) (i : I18n)
    (d : Caddyfile.Dispenser) : LoopEnd :=
  match fuel with
  | O => OutOfFuel
  | S fuel' =>
      let '(more, d1) := Caddyfile.NextBlock nesting d in
      if negb more then Finished i d1
      else if String.eqb (Caddyfile.Val d1) "dict_file" then
        let '(found, d2) := Caddyfile.NextArg d1 in
        if negb found then Returned (Caddyfile.ArgErr d2) i d2
        else
          let i' := with_DictFile (Caddyfile.Val d2) i in
          let '(extra, d3) := Caddyfile.NextArg d2 in
          if extra then Returned (Caddyfile.ArgErr d3) i' d3
          else block_loop fuel' nesting i' d3
      else
        Returned
          (Caddyfile.UnrecognizedProperty (Caddyfile.Val d1)
             (Caddyfile.CurrentFile d1) (Caddyfile.CurrentLine d1))
          i d1
  end.

(** The outer loop, [for d.Next() { ... }]. *)
Fixpoint next_loop (fuel : nat) (i : I18n) (d : Caddyfile.Dispenser) :
    LoopEnd :=
  match fuel with
  | O => OutOfFuel
  | S fuel' =>
      let '(more, d1) := Caddyfile.Next d in
      if negb more then Finished i d1
      else
        match block_loop (S (tokens_left d1)) (Caddyfile.Nesting d1) i d1
        with
        | Finished i' d2 => next_loop fuel' i' d2
        | ended => ended
        end
  end.

(** [func (i *I18n) UnmarshalCaddyfile(d *caddyfile.Dispenser) error]:
    [Finished] is [return nil]. *)
Definition UnmarshalCaddyfile (d : Caddyfile.Dispenser) (i : I18n) :
    LoopEnd :=
  next_loop (S (tokens_left d)) i d.

(** The instance after the function: nothing but the path changed. *)
Definition same_but_path (i i' : I18n) : Prop :=
  translations i' = translations i /\ mu i' = mu i /\
  logger i' = logger i.

(** The errors the function can make. *)
Definition possible_error (err : Caddyfile.ConfigError) : Prop :=
  match err with
  | Caddyfile.UnexpectedBrace _ _ => False
  | Caddyfile.WrongArgumentCount after _ _ => after <> "{"
  | Caddyfile.UnrecognizedProperty property _ _ => property <> "dict_file"
  end.

(** The tokens [caddyfile.NewTestDispenser] makes of one line of its
    input, which it calls [Testfile]. *)
Definition token_on (line : Z) (text : string) : Caddyfile.Token :=
  {| Caddyfile.File := "Testfile"; Caddyfile.imports := [];
     Caddyfile.Line := line; Caddyfile.Text := text;
     Caddyfile.heredocMarker := "" |}.

Definition on_line (line : Z) (texts : list string) :
    list Caddyfile.Token :=
  map (token_on line) texts.

(** The token after the cursor is on a later line, or there is none. *)
Definition line_ends (d : Caddyfile.Dispenser) (curr : Caddyfile.Token) :
    Prop :=
  match Caddyfile.tokens d !! Z.to_nat (Caddyfile.cursor d + 1) with
  | Some next => Caddyfile.isNextOnNewLine curr next = true
  | None => True
  end.

(** The lines [dict_file p1], ..., [dict_file pn], from line [line]
    on. *)
Fixpoint directives (line : Z) (paths : list string) :
    list Caddyfile.Token :=
  match paths with
  | [] => []
  | path :: rest =>
      (on_line line ["dict_file"; path] ++ directives (line + 1) rest)%list
  end.

(** The line [name {] and the directives below it. *)
Definition opened (name : string) (paths : list string) :
    list Caddyfile.Token :=
  (on_line 1 [name; "{"] ++ directives 2 paths)%list.

(** The block [name { dict_file p1 ... dict_file pn }], one directive
    per line and the closing brace on a line of its own. *)
Definition block (name : string) (paths : list string) :
    list Caddyfile.Token :=
  (opened name paths ++
   on_line (2 + Z.of_nat (length paths)) ["}"])%list.

(** The tokens that follow start on a line after [line], or there are
    none. *)
Definition starts_after (line : Z) (tail : list Caddyfile.Token) : Prop :=
  match tail with
  | [] => True
  | next :: _ => (line < Caddyfile.Line next)%Z
  end.

(** A path that is one argument on one line. *)
Definition one_line_path (path : string) : Prop :=
  path <> "{" /\ Caddyfile.count_newlines path = 0%Z.

(** The dispenser at the end of its tokens. *)
Definition at_end (ts : list Caddyfile.Token) : Caddyfile.Dispenser :=
  {| Caddyfile.tokens := ts;
     Caddyfile.cursor := Z.of_nat (length ts) - 1;
     Caddyfile.nesting := 0 |}.

(** * The specification, in its own words *)

(** ** Resolution *)

(** The text that the fallback rule selects for [key] under [lang]: the
    entry for [lang] if there is one, else the entry for ["en"]; nothing
    when the key is absent or has neither entry. *)
Definition chosen_text (d : gmap string (gmap string string))
    (key lang : string) : option string :=
  match d !! key with
  | None => None
  | Some entry =>
      match entry !! lang with
      | Some text => Some text
      | None => entry !! "en"
      end
  end.

(** Nested resolution: the requested language, then ["en"], then the
    nested key itself. *)
Definition nested_text (d : gmap string (gmap string string))
    (k lang : string) : string :=
  match chosen_text d k lang with
  | Some text => text
  | None => k
  end.

(** An argument that is inserted as it is: a string without the
    ["i18n:"] prefix, or a value that is no string. *)
Definition is_plain (arg : any) : bool :=
  match arg with
  | VString str => negb (Strings.HasPrefix str "i18n:")
  | _ => true
  end.

(** ** Placeholders *)

(** Some position of [s] starts a match of [\{(\d+)\}]. *)
Fixpoint contains_placeholder (s : string) : bool :=
  match s with
  | "" => false
  | String _ rest =>
      match Regexp.match_here s with
      | Some _ => true
      | None => contains_placeholder rest
      end
  end.

(** ** Loading *)

(** The three kinds of load error of the specification. *)
Inductive LoadKind : Type := NotFound | ParseError | ReadError.

(** The kind of an error of [loadDictionary], by the return statement
    that made it: the "not found" message, the "failed to parse" wrapper,
    or the error of [os.Open] handed on as it is. *)
Definition kind_of (err : error) : LoadKind :=
  match err with
  | ErrDictNotFound _ => NotFound
  | ErrParseDict _ => ParseError
  | _ => ReadError
  end.

(** The structure the specification calls well formed: an object whose
    values are objects whose values are strings. *)
Definition two_level (v : JSON) : bool :=
  match v with
  | JObject members =>
      forallb
        (fun member =>
           match snd member with
           | JObject texts =>
               forallb
                 (fun text =>
                    match snd text with JString _ => true | _ => false end)
                 texts
           | _ => false
           end)
        members
  | _ => false
  end.

(** The outcome the specification promises for the file at [path]: not
    found when opening finds nothing there, a read error for every
    other I/O failure, a parse error for a document that is not well
    formed, success ([None]) otherwise. *)
Definition claimed (fs : FileSystem) (path : string) : option LoadKind :=
  match fs !! path with
  | None | Some (Unopenable ENOENT) => Some NotFound
  | Some (Unopenable _) => Some ReadError
  | Some (Opens (Fails _)) => Some ReadError
  | Some (Opens (Value v)) => if two_level v then None else Some ParseError
  | Some (Opens _) => Some ParseError
  end.

(** [os.Open] fails at [path] with the errno [e]. *)
Definition open_fails (fs : FileSystem) (path : string) (e : Errno) :
    Prop :=
  Os.Open fs path = inr (PathError "open" path e).

(** The values the decoder takes without an error: null is taken at
    every level, next to the object or string that belongs there. *)
Definition accepted_text (v : JSON) : bool :=
  match v with
  | JString _ | JNull => true
  | _ => false
  end.

Definition accepted_entry (v : JSON) : bool :=
  match v with
  | JObject texts => forallb (fun text => accepted_text (snd text)) texts
  | JNull => true
  | _ => false
  end.

Definition accepted (v : JSON) : bool :=
  match v with
  | JObject members =>
      forallb (fun member => accepted_entry (snd member)) members
  | JNull => true
  | _ => false
  end.

(** The errors the decoder makes of a complete JSON value: none, or a
    type error. *)
Definition type_error (err : option error) : Prop :=
  match err with
  | None | Some (UnmarshalTypeError _) => True
  | Some _ => False
  end.

(** The outcome of the code for the file at [path]: every failure after
    the file is open, a failed read included, is a parse error. *)
Definition reported (fs : FileSystem) (path : string) : option LoadKind :=
  match fs !! path with
  | None | Some (Unopenable ENOENT) => Some NotFound
  | Some (Unopenable _) => Some ReadError
  | Some (Opens (Value v)) => if accepted v then None else Some ParseError
  | Some (Opens _) => Some ParseError
  end.

(** * Instances for the examples *)

(** A provisioned instance used in the examples. *)
Definition demo : I18n :=
  {| DictFile := "";
     translations :=
       <["msg" := <["en" := "Value: {0} and {5}"]> ∅]>
       (<["error" :=
            <["en" := "Error: {0} with code {1} for user {2}"]> ∅]>
       (<["system" := <["en" := "System"]> ∅]>
       (<["account" := <["en" := "Account"]> (<["de" := "Konto"]> ∅)]>
       (<["error.invalidAmount" :=
            <["en" := "Invalid amount: {0}"]>
            (<["de" := "Betrag: {0}"]> ∅)]>
       (<["hello" := <["fr" := "Bonjour"]> ∅]>
       (<["loop" := <["en" := "<{0}>"]> ∅]> ∅))))));
     mu := Some {| readerCount := 0 |};
     logger := Some [] |}.

(** An instance as the host hands it to [Provision]: only the path is
    set. *)
Definition configured (path : string) : I18n :=
  {| DictFile := path; translations := ∅; mu := None; logger := None |}.

(** A call on a 64-bit platform. *)
Definition run (i : I18n) (key lang : string) (args : list any) :
    result returned :=
  snd (i18nTranslate Arch64 i key lang args).

(** The dictionary file of the tests. *)
Definition test_document : JSON :=
  JObject
    [("hello", JObject [("de", JString "Hallo"); ("en", JString "Hello")]);
     ("goodbye", JObject [("en", JString "Goodbye")])].

(** * Properties of the library models *)

(** ** The panic monad and strings *)

Lemma rbind_Ok {A B : Type} (a : A) (k : A -> result B) :
  rbind (Ok a) k = k a.
Proof. reflexivity. Qed.

Lemma append_cons (c : ascii) (s t : string) :
  String c s +:+ t = String c (s +:+ t).
Proof. reflexivity. Qed.

Lemma append_nil_l (s : string) : "" +:+ s = s.
Proof. reflexivity. Qed.

Lemma append_nil_r (s : string) : s +:+ "" = s.
Proof.
  induction s as [|c s IH]; [reflexivity|].
  now rewrite append_cons, IH.
Qed.

Lemma append_assoc (s t u : string) : (s +:+ t) +:+ u = s +:+ (t +:+ u).
Proof.
  induction s as [|c s IH]; [reflexivity|].
  now rewrite !append_cons, IH.
Qed.

Lemma length_append (s t : string) :
  String.length (s +:+ t) = String.length s + String.length t.
Proof.
  induction s as [|c s IH]; [reflexivity|].
  rewrite append_cons. simpl. now rewrite IH.
Qed.

Ltac by_cases_on_byte c :=
  destruct c as [[] [] [] [] [] [] [] []]; vm_compute;
  try discriminate; try reflexivity; try (split; discriminate);
  try (split; congruence).

Lemma is_digit_not_brace (c : ascii) :
  is_digit c = true -> mem c "{}" = false.
Proof. by_cases_on_byte c. Qed.

Lemma is_digit_not_sign (c : ascii) :
  is_digit c = true -> c <> "-"%char /\ c <> "+"%char.
Proof. by_cases_on_byte c; intros _; split; discriminate. Qed.

Lemma is_digit_value (c : ascii) :
  is_digit c = true -> (0 <= Z.of_nat (nat_of_ascii c) - 48 <= 9)%Z.
Proof.
  unfold is_digit. intros H. apply andb_true_iff in H as [H1 H2].
  apply Nat.leb_le in H1, H2. lia.
Qed.

Lemma decimal_from_nonneg (ds : string) (acc : Z) :
  all_digits ds = true -> (0 <= acc)%Z -> (0 <= decimal_from acc ds)%Z.
Proof.
  revert acc. induction ds as [|c ds IH]; intros acc Hd Hacc; simpl; [lia|].
  simpl in Hd. apply andb_true_iff in Hd as [Hc Hd].
  apply IH; [assumption|]. pose proof (is_digit_value c Hc). lia.
Qed.

Lemma decimal_nonneg (ds : string) :
  all_digits ds = true -> (0 <= decimal ds)%Z.
Proof. intros H. apply decimal_from_nonneg; [assumption | lia]. Qed.

Lemma minInt_neg (a : arch) : (minInt a < 0)%Z.
Proof. destruct a; vm_compute; reflexivity. Qed.

(** [Atoi] on a run of digits: its decimal value, or [ErrRange] when
    that exceeds [int]. *)
Lemma Atoi_digits (a : arch) (ds : string) :
  all_digits ds = true -> ds <> "" ->
  Strconv.Atoi a ds =
    if (maxInt a <? decimal ds)%Z then (maxInt a, Some Strconv.ErrRange)
    else (decimal ds, None).
Proof.
  intros Hd Hne. pose proof (decimal_nonneg ds Hd) as Hpos.
  pose proof (minInt_neg a) as Hmin.
  destruct ds as [|c ds]; [congruence|].
  assert (Hc : is_digit c = true).
  { simpl in Hd. now apply andb_true_iff in Hd as [Hc _]. }
  destruct (is_digit_not_sign c Hc) as [Hm Hp].
  unfold Strconv.Atoi.
  assert (Hsplit :
    match String c ds with
    | String "-" s' => (true, s')
    | String "+" s' => (false, s')
    | _ => (false, String c ds)
    end = (false, String c ds)).
  { destruct c as [[] [] [] [] [] [] [] []]; try reflexivity; congruence. }
  rewrite Hsplit, Hd.
  destruct (Z.ltb_spec (decimal (String c ds)) (minInt a)); [lia|].
  reflexivity.
Qed.

Lemma TrimRight_digits_brace (ds : string) :
  all_digits ds = true -> Strings.TrimRight (ds +:+ "}") "{}" = ds.
Proof.
  induction ds as [|c ds IH]; intros Hd; [reflexivity|].
  simpl in Hd. apply andb_true_iff in Hd as [Hc Hd].
  rewrite append_cons. simpl. rewrite (IH Hd).
  destruct ds; [|reflexivity].
  change (mem c "{}") with (mem c "{}").
  pose proof (is_digit_not_brace c Hc) as Hm. simpl in Hm. now rewrite Hm.
Qed.

(** [strings.Trim(match, "{}")] of a match is the digits of its group. *)
Lemma Trim_token (ds : string) :
  all_digits ds = true -> ds <> "" ->
  Strings.Trim (Regexp.token ds) "{}" = ds.
Proof.
  intros Hd Hne. unfold Strings.Trim, Regexp.token.
  destruct ds as [|c ds]; [congruence|].
  assert (Hc : is_digit c = true).
  { simpl in Hd. now apply andb_true_iff in Hd as [Hc _]. }
  pose proof (is_digit_not_brace c Hc) as Hm.
  change ("{" +:+ String c ds +:+ "}")
    with (String "{" (String c (ds +:+ "}"))).
  change (Strings.TrimLeft (String "{" (String c (ds +:+ "}"))) "{}")
    with (if mem c "{}" then Strings.TrimLeft (ds +:+ "}") "{}"
          else String c (ds +:+ "}")).
  rewrite Hm. rewrite <- append_cons. now apply TrimRight_digits_brace.
Qed.

Lemma HasPrefix_append (p s : string) : Strings.HasPrefix (p +:+ s) p = true.
Proof.
  induction p as [|c p IH]; [now destruct s|].
  rewrite append_cons. simpl. now rewrite Ascii.eqb_refl, IH.
Qed.

Lemma drop_append (p s : string) : Strings.drop (String.length p) (p +:+ s) = s.
Proof.
  induction p as [|c p IH]; [reflexivity|].
  rewrite append_cons. simpl. exact IH.
Qed.

Lemma TrimPrefix_append (p s : string) : Strings.TrimPrefix (p +:+ s) p = s.
Proof.
  unfold Strings.TrimPrefix. now rewrite HasPrefix_append, drop_append.
Qed.

(** ** The scan of [\{(\d+)\}] *)

Section Scan.

Import Regexp.

Lemma span_digits_all (ds rest : string) (c : ascii) :
  all_digits ds = true -> is_digit c = false ->
  span_digits (ds +:+ String c rest) = (ds, String c rest).
Proof.
  intros Hd Hc. induction ds as [|d ds IH].
  - simpl. now rewrite Hc.
  - simpl in Hd. apply andb_true_iff in Hd as [Hd1 Hd2].
    rewrite append_cons. simpl. now rewrite Hd1, (IH Hd2).
Qed.

Lemma span_digits_spec (s ds rest : string) :
  span_digits s = (ds, rest) -> s = ds +:+ rest /\ all_digits ds = true.
Proof.
  revert ds rest. induction s as [|c s IH]; intros ds rest H; simpl in H.
  - inversion H; subst. now split.
  - destruct (is_digit c) eqn:Hc.
    + destruct (span_digits s) as [ds' rest'] eqn:Hs.
      inversion H; subst. destruct (IH ds' rest eq_refl) as [-> Hd].
      split; [reflexivity|]. simpl. now rewrite Hc, Hd.
    + inversion H; subst. now split.
Qed.

(** A run of digits followed by a byte that is no digit stays a run of
    digits when text is appended. *)
Lemma span_digits_append (s x : string) (c : ascii) :
  is_digit c = false ->
  span_digits (s +:+ String c x) =
    (fst (span_digits s), snd (span_digits s) +:+ String c x).
Proof.
  intros Hc. induction s as [|d s IH].
  - simpl. now rewrite Hc.
  - rewrite append_cons. simpl. destruct (is_digit d) eqn:Hd.
    + rewrite IH. now destruct (span_digits s).
    + reflexivity.
Qed.

Lemma open_brace_not_digit : is_digit "{" = false.
Proof. reflexivity. Qed.

Lemma close_brace_not_digit : is_digit "}" = false.
Proof. reflexivity. Qed.

(** The pattern matches at the head of a token. *)
Lemma match_here_token (ds rest : string) :
  all_digits ds = true -> ds <> "" ->
  match_here (token ds +:+ rest) = Some (ds, rest).
Proof.
  intros Hd Hne. unfold token. rewrite !append_assoc.
  change ("{" +:+ ds +:+ "}" +:+ rest)
    with (String "{" (ds +:+ String "}" rest)).
  unfold match_here.
  rewrite (span_digits_all ds rest "}" Hd close_brace_not_digit).
  destruct ds; [congruence | reflexivity].
Qed.

(** Whatever the pattern matches is a token. *)
Lemma match_here_inv (s ds rest : string) :
  match_here s = Some (ds, rest) ->
  s = token ds +:+ rest /\ all_digits ds = true /\ ds <> "".
Proof.
  unfold match_here. destruct s as [|c s]; [discriminate|].
  destruct (Ascii.eqb_spec c "{") as [->|Hne].
  2:{ destruct c as [[] [] [] [] [] [] [] []]; try discriminate.
      congruence. }
  destruct (span_digits s) as [d r] eqn:Hs.
  destruct (span_digits_spec _ _ _ Hs) as [-> Hd].
  destruct d as [|d0 d]; [discriminate|].
  destruct r as [|r0 r]; [discriminate|].
  destruct (Ascii.eqb_spec r0 "}") as [->|Hne].
  2:{ destruct r0 as [[] [] [] [] [] [] [] []]; try discriminate.
      congruence. }
  intros H. inversion H; subst. split; [|split].
  - unfold token. now rewrite !append_assoc.
  - assumption.
  - discriminate.
Qed.

(** A match that starts before an opening brace ends before it. *)
Lemma match_here_append (c : ascii) (s x : string) :
  match_here (String c s +:+ String "{" x) =
    match match_here (String c s) with
    | Some (ds, rest) => Some (ds, rest +:+ String "{" x)
    | None => None
    end.
Proof.
  rewrite append_cons. unfold match_here.
  destruct (Ascii.eqb_spec c "{") as [->|Hne].
  2:{ destruct c as [[] [] [] [] [] [] [] []]; try reflexivity.
      congruence. }
  rewrite (span_digits_append s x "{" open_brace_not_digit).
  destruct (span_digits s) as [d r]. simpl.
  destruct d as [|d0 d]; [reflexivity|].
  destruct r as [|r0 r]; [reflexivity|].
  rewrite append_cons.
  destruct r0 as [[] [] [] [] [] [] [] []]; reflexivity.
Qed.

Variable repl : string -> result string.

Lemma replace_from_skip (p rest : string) :
  replace_from repl (String.length p) (p +:+ rest) =
    replace_from repl 0 rest.
Proof.
  induction p as [|c p IH]; [reflexivity|].
  rewrite append_cons. simpl. exact IH.
Qed.

(** One step of the scan: a match at the head is replaced and the scan
    resumes after it; otherwise the head byte is copied. *)
Lemma ReplaceAllStringFunc_step (src : string) :
  ReplaceAllStringFunc src repl =
    match match_here src with
    | Some (ds, rest) =>
        do r <- repl (token ds);
        do out <- ReplaceAllStringFunc rest repl;
        Ok (r +:+ out)
    | None =>
        match src with
        | "" => Ok ""
        | String c rest =>
            do out <- ReplaceAllStringFunc rest repl;
            Ok (String c out)
        end
    end.
Proof.
  unfold ReplaceAllStringFunc. destruct src as [|c src]; [reflexivity|].
  cbn [replace_from].
  destruct (match_here (String c src)) as [[ds rest]|] eqn:Hm;
    [|reflexivity].
  destruct (match_here_inv _ _ _ Hm) as (Hs & _ & _).
  change (token ds +:+ rest)
    with (String "{" ((ds +:+ "}") +:+ rest)) in Hs.
  inversion Hs as [[Hc Hsrc]].
  replace (S (String.length ds)) with (String.length (ds +:+ "}")).
  2:{ rewrite length_append. simpl. lia. }
  now rewrite replace_from_skip.
Qed.

Lemma ReplaceAllStringFunc_token (ds rest : string) :
  all_digits ds = true -> ds <> "" ->
  ReplaceAllStringFunc (token ds +:+ rest) repl =
    (do r <- repl (token ds);
     do out <- ReplaceAllStringFunc rest repl;
     Ok (r +:+ out)).
Proof.
  intros Hd Hne.
  now rewrite ReplaceAllStringFunc_step, (match_here_token ds rest Hd Hne).
Qed.

Lemma rbind_ret (m : result string) : (do x <- m; Ok x) = m.
Proof. now destruct m. Qed.

(** The scan of a text that is cut before an opening brace is the scan
    of the two parts: no match crosses an opening brace. *)
Lemma ReplaceAllStringFunc_app (a x : string) :
  ReplaceAllStringFunc (a +:+ String "{" x) repl =
    (do sa <- ReplaceAllStringFunc a repl;
     do st <- ReplaceAllStringFunc (String "{" x) repl;
     Ok (sa +:+ st)).
Proof.
  remember (String.length a) as n eqn:Hn. revert a Hn.
  induction n as [n IH] using lt_wf_ind. intros a Hn.
  destruct a as [|c a].
  - rewrite append_nil_l.
    change (ReplaceAllStringFunc "" repl) with (Ok (A:=string) "").
    rewrite rbind_Ok. symmetry. apply rbind_ret.
  - rewrite (ReplaceAllStringFunc_step (String c a +:+ String "{" x)).
    rewrite (ReplaceAllStringFunc_step (String c a)).
    rewrite match_here_append.
    destruct (match_here (String c a)) as [[ds rest]|] eqn:Hm.
    + destruct (match_here_inv _ _ _ Hm) as (Hs & _ & _).
      assert (Hlen : String.length rest < n).
      { rewrite Hn, Hs, length_append. unfold token.
        rewrite !length_append. simpl. lia. }
      rewrite (IH _ Hlen rest eq_refl).
      destruct (repl (token ds)) as [r|]; [|reflexivity].
      rewrite !rbind_Ok.
      destruct (ReplaceAllStringFunc rest repl) as [out|]; [|reflexivity].
      rewrite !rbind_Ok.
      destruct (ReplaceAllStringFunc (String "{" x) repl) as [st|];
        [|reflexivity].
      rewrite !rbind_Ok. now rewrite append_assoc.
    + rewrite append_cons.
      assert (Hlen : String.length a < n) by (rewrite Hn; simpl; lia).
      rewrite (IH _ Hlen a eq_refl).
      destruct (ReplaceAllStringFunc a repl) as [out|]; [|reflexivity].
      rewrite !rbind_Ok.
      destruct (ReplaceAllStringFunc (String "{" x) repl) as [st|];
        reflexivity.
Qed.

(** The text around a token is scanned on its own, and the token makes
    way for what [repl] returns for it, as it is. *)
Lemma ReplaceAllStringFunc_around (a ds b : string) :
  all_digits ds = true -> ds <> "" ->
  ReplaceAllStringFunc (a +:+ token ds +:+ b) repl =
    (do sa <- ReplaceAllStringFunc a repl;
     do r <- repl (token ds);
     do sb <- ReplaceAllStringFunc b repl;
     Ok (sa +:+ r +:+ sb)).
Proof.
  intros Hd Hne.
  change (token ds +:+ b) with (String "{" ((ds +:+ "}") +:+ b)).
  rewrite ReplaceAllStringFunc_app.
  change (String "{" ((ds +:+ "}") +:+ b)) with (token ds +:+ b).
  rewrite (ReplaceAllStringFunc_token ds b Hd Hne).
  destruct (ReplaceAllStringFunc a repl) as [sa|]; [|reflexivity].
  destruct (repl (token ds)) as [r|]; [|reflexivity].
  now destruct (ReplaceAllStringFunc b repl).
Qed.

(** The scan returns when [repl] returns for every token. *)
Lemma ReplaceAllStringFunc_total (src : string) :
  (forall ds, all_digits ds = true -> ds <> "" ->
              exists r, repl (token ds) = Ok r) ->
  exists out, ReplaceAllStringFunc src repl = Ok out.
Proof.
  intros Hrepl.
  remember (String.length src) as n eqn:Hn. revert src Hn.
  induction n as [n IH] using lt_wf_ind. intros src Hn.
  rewrite ReplaceAllStringFunc_step.
  destruct (match_here src) as [[ds rest]|] eqn:Hm.
  - destruct (match_here_inv _ _ _ Hm) as (Hs & Hd & Hne).
    destruct (Hrepl ds Hd Hne) as [r ->].
    assert (Hlen : String.length rest < n).
    { rewrite Hn, Hs, length_append. unfold token.
      rewrite !length_append. simpl. lia. }
    destruct (IH _ Hlen rest eq_refl) as [out ->].
    rewrite !rbind_Ok. eauto.
  - destruct src as [|c rest]; [eauto|].
    assert (Hlen : String.length rest < n) by (rewrite Hn; simpl; lia).
    destruct (IH _ Hlen rest eq_refl) as [out ->].
    rewrite rbind_Ok. eauto.
Qed.

End Scan.

(** ** Texts without a placeholder *)

(** [contains_placeholder] decides whether a token occurs in the text. *)
Lemma contains_placeholder_spec (s : string) :
  contains_placeholder s = true <->
  exists a ds b, all_digits ds = true /\ ds <> "" /\
                 s = a +:+ Regexp.token ds +:+ b.
Proof.
  split.
  - induction s as [|c s IH]; [discriminate|].
    cbn [contains_placeholder].
    destruct (Regexp.match_here (String c s)) as [[ds rest]|] eqn:Hm.
    + intros _. destruct (match_here_inv _ _ _ Hm) as (Hs & Hd & Hne).
      exists "", ds, rest. now rewrite append_nil_l.
    + intros H. destruct (IH H) as (a & ds & b & Hd & Hne & ->).
      exists (String c a), ds, b. now rewrite append_cons.
  - intros (a & ds & b & Hd & Hne & ->).
    induction a as [|c a IH].
    + rewrite append_nil_l.
      change (Regexp.token ds +:+ b)
        with (String "{" ((ds +:+ "}") +:+ b)).
      cbn [contains_placeholder].
      change (String "{" ((ds +:+ "}") +:+ b))
        with (Regexp.token ds +:+ b).
      now rewrite (match_here_token ds b Hd Hne).
    + rewrite append_cons. cbn [contains_placeholder].
      now destruct (Regexp.match_here (String c (a +:+ Regexp.token ds +:+ b)))
        as [[? ?]|].
Qed.

(** A text without a placeholder is copied, whatever [repl] is. *)
Lemma ReplaceAllStringFunc_no_placeholder
    (repl : string -> result string) (s : string) :
  contains_placeholder s = false ->
  Regexp.ReplaceAllStringFunc s repl = Ok s.
Proof.
  induction s as [|c s IH]; [reflexivity|].
  cbn [contains_placeholder]. intros H.
  rewrite ReplaceAllStringFunc_step.
  destruct (Regexp.match_here (String c s)) as [[? ?]|]; [discriminate|].
  now rewrite (IH H).
Qed.

(** * Properties of the resolver *)

(** ** The replacement of one token *)

Section Replacement.

Variable platform : arch.
Variable i : I18n.
Variable lang : string.
Variable args : list any.

Let repl := replacement platform i lang args.

Lemma replacement_token (ds : string) :
  all_digits ds = true -> ds <> "" ->
  repl (Regexp.token ds) =
    if (maxInt platform <? decimal ds)%Z || (len args <=? decimal ds)%Z
    then Ok (Regexp.token ds)
    else
      do arg <- index args (decimal ds);
      match arg with
      | VString str =>
          if Strings.HasPrefix str "i18n:" then
            Ok (nested_text (translations i)
                  (Strings.TrimPrefix str "i18n:") lang)
          else Ok str
      | _ => Ok (Fmt.Sprint arg)
      end.
Proof.
  intros Hd Hne. unfold repl, replacement.
  rewrite (Trim_token ds Hd Hne), (Atoi_digits platform ds Hd Hne).
  destruct (Z.ltb_spec (maxInt platform) (decimal ds)) as [Hbig|Hfit].
  - reflexivity.
  - cbn [orb]. rewrite bool_decide_eq_false_2 by (intros H; now apply H).
    cbn [orb]. destruct (len args <=? decimal ds)%Z; [reflexivity|].
    destruct (index args (decimal ds)) as [arg|]; [|reflexivity].
    rewrite !rbind_Ok. destruct arg as [str| | | |]; try reflexivity.
    destruct (Strings.HasPrefix str "i18n:"); [|reflexivity].
    unfold nested_text, chosen_text.
    destruct (translations i !! Strings.TrimPrefix str "i18n:")
      as [entry|]; [|reflexivity].
    destruct (entry !! lang); [reflexivity|].
    now destruct (entry !! "en").
Qed.

(** An index at or past the end of [args]: the token stays. *)
Lemma replacement_out_of_range (ds : string) :
  all_digits ds = true -> ds <> "" ->
  (len args <= decimal ds)%Z ->
  repl (Regexp.token ds) = Ok (Regexp.token ds).
Proof.
  intros Hd Hne Hge. rewrite (replacement_token ds Hd Hne).
  apply Z.leb_le in Hge. rewrite Hge. now rewrite orb_true_r.
Qed.

(** Digits that [Atoi] rejects: the token stays. *)
Lemma replacement_unparsable (ds : string) :
  all_digits ds = true -> ds <> "" ->
  (maxInt platform < decimal ds)%Z ->
  repl (Regexp.token ds) = Ok (Regexp.token ds).
Proof.
  intros Hd Hne Hbig. rewrite (replacement_token ds Hd Hne).
  apply Z.ltb_lt in Hbig. now rewrite Hbig.
Qed.

Lemma index_in_range (n : nat) (arg : any) :
  args !! n = Some arg -> index args (Z.of_nat n) = Ok arg.
Proof.
  intros H. unfold index.
  destruct (Z.ltb_spec (Z.of_nat n) 0); [lia|].
  now rewrite Nat2Z.id, H.
Qed.

(** An index inside [args]: the token becomes the argument's text. *)
Lemma replacement_in_range (ds : string) (n : nat) (arg : any) :
  all_digits ds = true -> ds <> "" ->
  decimal ds = Z.of_nat n ->
  args !! n = Some arg ->
  (len args <= maxInt platform)%Z ->
  repl (Regexp.token ds) =
    match arg with
    | VString str =>
        if Strings.HasPrefix str "i18n:" then
          Ok (nested_text (translations i)
                (Strings.TrimPrefix str "i18n:") lang)
        else Ok str
    | _ => Ok (Fmt.Sprint arg)
    end.
Proof.
  intros Hd Hne Hn Harg Hlen. rewrite (replacement_token ds Hd Hne).
  pose proof (lookup_lt_Some _ _ _ Harg) as Hlt. unfold len in *.
  rewrite Hn.
  destruct (Z.ltb_spec (maxInt platform) (Z.of_nat n)); [lia|].
  destruct (Z.leb_spec (Z.of_nat (length args)) (Z.of_nat n)); [lia|].
  cbn [orb]. now rewrite (index_in_range n arg Harg), rbind_Ok.
Qed.

(** The function literal never panics on a match: the digits of a
    match are no negative number, and the bound is checked. *)
Lemma replacement_returns (ds : string) :
  all_digits ds = true -> ds <> "" ->
  exists r, repl (Regexp.token ds) = Ok r.
Proof.
  intros Hd Hne. rewrite (replacement_token ds Hd Hne).
  destruct (_ || _) eqn:Hguard; [eauto|].
  apply orb_false_iff in Hguard as [_ Hlt]. apply Z.leb_gt in Hlt.
  pose proof (decimal_nonneg ds Hd) as Hpos.
  unfold index. destruct (Z.ltb_spec (decimal ds) 0); [lia|].
  unfold len in Hlt.
  destruct (args !! Z.to_nat (decimal ds)) as [arg|] eqn:Harg.
  - rewrite rbind_Ok. destruct arg as [str| | | |]; eauto.
    destruct (Strings.HasPrefix str "i18n:"); eauto.
  - apply lookup_ge_None in Harg. lia.
Qed.

(** [interpolateTranslations] returns for every template. *)
Lemma interpolateTranslations_returns (tmpl : string) :
  exists out, interpolateTranslations platform i tmpl lang args = Ok out.
Proof.
  unfold interpolateTranslations.
  apply ReplaceAllStringFunc_total. exact replacement_returns.
Qed.

(** The interpolation of a template around one of its tokens. *)
Lemma interpolateTranslations_around (a ds b r : string) :
  all_digits ds = true -> ds <> "" ->
  repl (Regexp.token ds) = Ok r ->
  exists sa sb,
    interpolateTranslations platform i a lang args = Ok sa /\
    interpolateTranslations platform i b lang args = Ok sb /\
    interpolateTranslations platform i (a +:+ Regexp.token ds +:+ b)
      lang args = Ok (sa +:+ r +:+ sb).
Proof.
  intros Hd Hne Hr.
  destruct (interpolateTranslations_returns a) as [sa Ha].
  destruct (interpolateTranslations_returns b) as [sb Hb].
  exists sa, sb. split; [exact Ha|]. split; [exact Hb|].
  unfold interpolateTranslations in *. unfold repl in Hr.
  rewrite (ReplaceAllStringFunc_around _ a ds b Hd Hne).
  now rewrite Ha, Hr, Hb.
Qed.

End Replacement.

(** ** The template function *)

Lemma replace_from_ext (f g : string -> result string) (k : nat)
    (src : string) :
  (forall m, f m = g m) ->
  Regexp.replace_from f k src = Regexp.replace_from g k src.
Proof.
  intros Hfg. revert k. induction src as [|c src IH]; intros k;
    [reflexivity|].
  cbn [Regexp.replace_from]. destruct k as [|k]; [|apply IH].
  destruct (Regexp.match_here (String c src)) as [[ds rest]|].
  - now rewrite Hfg, IH.
  - now rewrite IH.
Qed.

(** Interpolation reads nothing of the instance but its dictionary. *)
Lemma interpolateTranslations_ext (platform : arch) (i i' : I18n)
    (tmpl lang : string) (args : list any) :
  translations i = translations i' ->
  interpolateTranslations platform i tmpl lang args =
    interpolateTranslations platform i' tmpl lang args.
Proof.
  intros H. unfold interpolateTranslations, Regexp.ReplaceAllStringFunc.
  apply replace_from_ext. intros m. unfold replacement. now rewrite H.
Qed.

Lemma translations_log_if_set (lvl : Level) (msg : string)
    (fs : list (string * string)) (i : I18n) :
  translations (log_if_set lvl msg fs i) = translations i.
Proof. unfold log_if_set. now destruct (logger i). Qed.

Lemma mu_log_if_set (lvl : Level) (msg : string)
    (fs : list (string * string)) (i : I18n) :
  mu (log_if_set lvl msg fs i) = mu i.
Proof. unfold log_if_set. now destruct (logger i). Qed.

Lemma DictFile_log_if_set (lvl : Level) (msg : string)
    (fs : list (string * string)) (i : I18n) :
  DictFile (log_if_set lvl msg fs i) = DictFile i.
Proof. unfold log_if_set. now destruct (logger i). Qed.

Section Translate.

Variable platform : arch.

(** The body of the closure leaves the dictionary and the lock as they
    are; it only writes log events. *)
Lemma translate_locked_frame (i : I18n) (key lang : string)
    (args : list any) :
  let i' := fst (translate_locked platform i key lang args) in
  translations i' = translations i /\ mu i' = mu i /\
  DictFile i' = DictFile i.
Proof.
  unfold translate_locked.
  destruct (translations i !! key) as [entry|]; cbn zeta.
  - destruct (entry !! lang) as [val|].
    + now destruct (0 <? len args)%Z.
    + destruct (entry !! "en") as [val|].
      * destruct (0 <? len args)%Z; cbn [fst];
          now rewrite translations_log_if_set, mu_log_if_set,
            DictFile_log_if_set.
      * cbn [fst].
        now rewrite translations_log_if_set, mu_log_if_set,
          DictFile_log_if_set.
  - cbn [fst].
    now rewrite translations_log_if_set, mu_log_if_set,
      DictFile_log_if_set.
Qed.

(** What the body returns, in terms of the dictionary alone. *)
Lemma translate_locked_result (i : I18n) (key lang : string)
    (args : list any) :
  snd (translate_locked platform i key lang args) =
    match chosen_text (translations i) key lang with
    | None => Ok (key, None)
    | Some val =>
        if (0 <? len args)%Z then
          do val' <- interpolateTranslations platform i val lang args;
          Ok (val', None)
        else Ok (val, None)
    end.
Proof.
  unfold translate_locked, chosen_text.
  destruct (translations i !! key) as [entry|]; [|reflexivity].
  destruct (entry !! lang) as [val|].
  - now destruct (0 <? len args)%Z.
  - destruct (entry !! "en") as [val|]; [|reflexivity].
    destruct (0 <? len args)%Z; [|reflexivity]. cbn [snd].
    now rewrite (interpolateTranslations_ext platform _ i)
      by apply translations_log_if_set.
Qed.

(** What the template function returns once the lock exists. *)
Lemma i18nTranslate_result (i : I18n) (key lang : string)
    (args : list any) (m : RWMutex) :
  mu i = Some m ->
  snd (i18nTranslate platform i key lang args) =
    match chosen_text (translations i) key lang with
    | None => Ok (key, None)
    | Some val =>
        if (0 <? len args)%Z then
          do val' <- interpolateTranslations platform i val lang args;
          Ok (val', None)
        else Ok (val, None)
    end.
Proof.
  intros Hmu. unfold i18nTranslate. rewrite Hmu.
  pose proof (translate_locked_result
                (with_mu (Some (RLock m)) i) key lang args) as H.
  destruct (translate_locked platform (with_mu (Some (RLock m)) i)
              key lang args) as [i' r].
  cbn [snd] in *. rewrite H. cbn [with_mu translations].
  destruct (chosen_text (translations i) key lang) as [val|];
    [|reflexivity].
  destruct (0 <? len args)%Z; [|reflexivity].
  now rewrite (interpolateTranslations_ext platform _ i) by reflexivity.
Qed.

(** The lock is released on return: the deferred [RUnlock] undoes the
    [RLock]. *)
Lemma i18nTranslate_unlocks (i : I18n) (key lang : string)
    (args : list any) :
  mu (fst (i18nTranslate platform i key lang args)) = mu i.
Proof.
  unfold i18nTranslate. destruct (mu i) as [m|] eqn:Hmu.
  - pose proof (translate_locked_frame
                  (with_mu (Some (RLock m)) i) key lang args) as H.
    destruct (translate_locked platform (with_mu (Some (RLock m)) i)
                key lang args) as [i' r].
    cbn [fst] in *. destruct H as (_ & Hm & _).
    cbn [with_mu mu] in *. rewrite Hm. cbn. now destruct m.
  - cbn [fst]. exact Hmu.
Qed.

End Translate.

(** * The resolver against its specification *)

Section Claims.

Variable platform : arch.

(** C1. Without arguments, [i18nTranslate] returns the stored text for
    (key, lang) when both are present; otherwise the stored text for
    (key, "en") when that is present; otherwise the key itself, both
    when the key is absent (the empty key included) and when the key
    has neither entry.  In each case it returns, with a nil error. *)
Theorem i18nTranslate_fallback (i : I18n) (key lang : string)
    (m : RWMutex) (Hmu : mu i = Some m) :
  exists text,
    snd (i18nTranslate platform i key lang []) = Ok (text, None) /\
    (forall entry stored,
       translations i !! key = Some entry ->
       entry !! lang = Some stored -> text = stored) /\
    (forall entry stored,
       translations i !! key = Some entry ->
       entry !! lang = None ->
       entry !! "en" = Some stored -> text = stored) /\
    (translations i !! key = None -> text = key) /\
    (forall entry,
       translations i !! key = Some entry ->
       entry !! lang = None -> entry !! "en" = None -> text = key).
Proof.
  rewrite (i18nTranslate_result platform i key lang [] m Hmu).
  unfold chosen_text. change (0 <? len [])%Z with false.
  destruct (translations i !! key) as [entry|] eqn:Hkey.
  - destruct (entry !! lang) as [val|] eqn:Hlang.
    + exists val. repeat split; intros; congruence.
    + destruct (entry !! "en") as [val|] eqn:Hen.
      * exists val. repeat split; intros; congruence.
      * exists key. repeat split; intros; congruence.
  - exists key. repeat split; intros; congruence.
Qed.

(** C2. A token whose index is inside the argument list and whose
    argument is a string ["i18n:" ++ k] is replaced by the nested key
    resolved under the language of the call: the entry of [k] for that
    language, else its ["en"] entry, else [k] itself, also when [k] is
    absent.  The language of the call is used even when the template
    itself came from the ["en"] fallback.  [Hlen] holds of every Go
    slice: its length is an [int]. *)
Theorem nested_key_resolution (i : I18n) (key lang : string)
    (args : list any) (m : RWMutex) (a ds b k : string) (n : nat)
    (Hmu : mu i = Some m)
    (Hchosen : chosen_text (translations i) key lang =
                 Some (a +:+ Regexp.token ds +:+ b))
    (Hdigits : all_digits ds = true) (Hne : ds <> "")
    (Hindex : decimal ds = Z.of_nat n)
    (Harg : args !! n = Some (VString ("i18n:" +:+ k)))
    (Hlen : (len args <= maxInt platform)%Z) :
  exists sa sb,
    interpolateTranslations platform i a lang args = Ok sa /\
    interpolateTranslations platform i b lang args = Ok sb /\
    snd (i18nTranslate platform i key lang args) =
      Ok (sa +:+ nested_text (translations i) k lang +:+ sb, None).
Proof.
  assert (Hr : replacement platform i lang args (Regexp.token ds) =
               Ok (nested_text (translations i) k lang)).
  { rewrite (replacement_in_range platform i lang args ds n _
               Hdigits Hne Hindex Harg Hlen).
    now rewrite HasPrefix_append, TrimPrefix_append. }
  destruct (interpolateTranslations_around platform i lang args
              a ds b _ Hdigits Hne Hr) as (sa & sb & Ha & Hb & Hab).
  exists sa, sb. split; [exact Ha|]. split; [exact Hb|].
  rewrite (i18nTranslate_result platform i key lang args m Hmu), Hchosen.
  pose proof (lookup_lt_Some _ _ _ Harg) as Hlt.
  assert (Hpos : (0 <? len args)%Z = true)
    by (apply Z.ltb_lt; unfold len; lia).
  now rewrite Hpos, Hab.
Qed.

(** C3. Interpolation is one pass over the template.  The value of a
    nested key is put into the output as it is stored, whatever it
    contains: tokens inside it are not substituted, and the text
    before and after the token is interpolated on its own.  [Hlen] holds
    of every Go slice. *)
Theorem interpolation_single_pass (i : I18n) (lang : string)
    (args : list any) (a ds b k v : string) (n : nat)
    (Hdigits : all_digits ds = true) (Hne : ds <> "")
    (Hindex : decimal ds = Z.of_nat n)
    (Harg : args !! n = Some (VString ("i18n:" +:+ k)))
    (Hlen : (len args <= maxInt platform)%Z)
    (Hnested : chosen_text (translations i) k lang = Some v) :
  exists sa sb,
    interpolateTranslations platform i a lang args = Ok sa /\
    interpolateTranslations platform i b lang args = Ok sb /\
    interpolateTranslations platform i (a +:+ Regexp.token ds +:+ b)
      lang args = Ok (sa +:+ v +:+ sb).
Proof.
  apply interpolateTranslations_around; [assumption..|].
  rewrite (replacement_in_range platform i lang args ds n _
             Hdigits Hne Hindex Harg Hlen).
  rewrite HasPrefix_append, TrimPrefix_append.
  unfold nested_text. now rewrite Hnested.
Qed.

(** C4. A token whose index is at or past the number of arguments is
    left in the output as its own text, and nothing fails. *)
Theorem placeholder_out_of_range_kept (i : I18n) (lang : string)
    (args : list any) (a ds b : string)
    (Hdigits : all_digits ds = true) (Hne : ds <> "")
    (Hout : (len args <= decimal ds)%Z) :
  exists sa sb,
    interpolateTranslations platform i a lang args = Ok sa /\
    interpolateTranslations platform i b lang args = Ok sb /\
    interpolateTranslations platform i (a +:+ Regexp.token ds +:+ b)
      lang args = Ok (sa +:+ Regexp.token ds +:+ sb).
Proof.
  apply interpolateTranslations_around; [assumption..|].
  now apply replacement_out_of_range.
Qed.

(** C5. [i18nTranslate] is total: for every dictionary, key, language
    and argument list it returns a string and a nil error; it never
    panics. *)
Theorem i18nTranslate_total (i : I18n) (key lang : string)
    (args : list any) (m : RWMutex) (Hmu : mu i = Some m) :
  exists text,
    snd (i18nTranslate platform i key lang args) = Ok (text, None).
Proof.
  rewrite (i18nTranslate_result platform i key lang args m Hmu).
  destruct (chosen_text (translations i) key lang) as [val|]; [|eauto].
  destruct (0 <? len args)%Z; [|eauto].
  destruct (interpolateTranslations_returns platform i lang args val)
    as [out ->].
  rewrite rbind_Ok. eauto.
Qed.

(** C7. A chosen text without a placeholder is returned exactly,
    whatever the arguments are; and with no arguments any chosen text
    is returned unchanged. *)
Theorem text_without_placeholder_unchanged (i : I18n)
    (key lang : string) (args : list any) (m : RWMutex) (val : string)
    (Hmu : mu i = Some m)
    (Hchosen : chosen_text (translations i) key lang = Some val)
    (Hplain : contains_placeholder val = false \/ args = []) :
  snd (i18nTranslate platform i key lang args) = Ok (val, None).
Proof.
  rewrite (i18nTranslate_result platform i key lang args m Hmu), Hchosen.
  destruct Hplain as [Hplain| ->]; [|reflexivity].
  destruct (0 <? len args)%Z; [|reflexivity].
  unfold interpolateTranslations.
  now rewrite (ReplaceAllStringFunc_no_placeholder _ val Hplain).
Qed.

(** C8. A call reads the dictionary and does not write it: the
    translations map after the call is the map before it. *)
Theorem i18nTranslate_preserves_translations (i : I18n)
    (key lang : string) (args : list any) :
  translations (fst (i18nTranslate platform i key lang args)) =
    translations i.
Proof.
  unfold i18nTranslate. destruct (mu i) as [m|]; [|reflexivity].
  pose proof (translate_locked_frame platform
                (with_mu (Some (RLock m)) i) key lang args) as H.
  destruct (translate_locked platform (with_mu (Some (RLock m)) i)
              key lang args) as [i' r].
  cbn [fst] in *. destruct H as (Ht & _ & _).
  cbn [with_mu translations] in *. exact Ht.
Qed.

(** C9. A token whose digits [Atoi] rejects, because the number does
    not fit [int], is left in the output as its own text, like a token
    out of range; nothing panics. *)
Theorem placeholder_unparsable_kept (i : I18n) (lang : string)
    (args : list any) (a ds b : string)
    (Hdigits : all_digits ds = true) (Hne : ds <> "")
    (Hbig : (maxInt platform < decimal ds)%Z) :
  snd (Strconv.Atoi platform ds) = Some Strconv.ErrRange /\
  exists sa sb,
    interpolateTranslations platform i a lang args = Ok sa /\
    interpolateTranslations platform i b lang args = Ok sb /\
    interpolateTranslations platform i (a +:+ Regexp.token ds +:+ b)
      lang args = Ok (sa +:+ Regexp.token ds +:+ sb).
Proof.
  split.
  - rewrite (Atoi_digits platform ds Hdigits Hne).
    apply Z.ltb_lt in Hbig. now rewrite Hbig.
  - apply interpolateTranslations_around; [assumption..|].
    now apply replacement_unparsable.
Qed.

(** C10. A string argument without the ["i18n:"] prefix, and the text
    [fmt.Sprint] gives for an argument that is no string, are put into
    the output as they are: tokens inside them are not substituted.
    [Hlen] holds of every Go slice. *)
Theorem plain_argument_verbatim (i : I18n) (lang : string)
    (args : list any) (a ds b : string) (n : nat) (arg : any)
    (Hdigits : all_digits ds = true) (Hne : ds <> "")
    (Hindex : decimal ds = Z.of_nat n)
    (Harg : args !! n = Some arg)
    (Hlen : (len args <= maxInt platform)%Z)
    (Hplain : is_plain arg = true) :
  exists sa sb,
    interpolateTranslations platform i a lang args = Ok sa /\
    interpolateTranslations platform i b lang args = Ok sb /\
    interpolateTranslations platform i (a +:+ Regexp.token ds +:+ b)
      lang args =
      Ok (sa +:+ match arg with
                 | VString str => str
                 | _ => Fmt.Sprint arg
                 end +:+ sb).
Proof.
  apply interpolateTranslations_around; [assumption..|].
  rewrite (replacement_in_range platform i lang args ds n arg
             Hdigits Hne Hindex Harg Hlen).
  destruct arg as [str| | | |]; try reflexivity.
  simpl in Hplain. apply negb_true_iff in Hplain. now rewrite Hplain.
Qed.

End Claims.

(** ** The theorems at concrete calls *)

Lemma i18nTranslate_fallback_witness :
  exists text,
    snd (i18nTranslate Arch64 demo "account" "fr" []) = Ok (text, None) /\
    (forall entry stored,
       translations demo !! "account" = Some entry ->
       entry !! "fr" = Some stored -> text = stored) /\
    (forall entry stored,
       translations demo !! "account" = Some entry ->
       entry !! "fr" = None ->
       entry !! "en" = Some stored -> text = stored) /\
    (translations demo !! "account" = None -> text = "account") /\
    (forall entry,
       translations demo !! "account" = Some entry ->
       entry !! "fr" = None -> entry !! "en" = None -> text = "account").
Proof.
  apply (i18nTranslate_fallback Arch64 demo "account" "fr"
           {| readerCount := 0 |}).
  reflexivity.
Defined.

Lemma nested_key_resolution_witness :
  exists sa sb,
    interpolateTranslations Arch64 demo "Value: " "de"
      [VString "i18n:account"] = Ok sa /\
    interpolateTranslations Arch64 demo " and {5}" "de"
      [VString "i18n:account"] = Ok sb /\
    snd (i18nTranslate Arch64 demo "msg" "de" [VString "i18n:account"]) =
      Ok (sa +:+ nested_text (translations demo) "account" "de" +:+ sb,
          None).
Proof.
  apply (nested_key_resolution Arch64 demo "msg" "de"
           [VString "i18n:account"] {| readerCount := 0 |}
           "Value: " "0" " and {5}" "account" 0).
  - reflexivity.
  - vm_compute. reflexivity.
  - reflexivity.
  - discriminate.
  - reflexivity.
  - reflexivity.
  - vm_compute. discriminate.
Defined.

Lemma interpolation_single_pass_witness :
  exists sa sb,
    interpolateTranslations Arch64 demo "<" "en" [VString "i18n:loop"] =
      Ok sa /\
    interpolateTranslations Arch64 demo ">" "en" [VString "i18n:loop"] =
      Ok sb /\
    interpolateTranslations Arch64 demo ("<" +:+ Regexp.token "0" +:+ ">")
      "en" [VString "i18n:loop"] = Ok (sa +:+ "<{0}>" +:+ sb).
Proof.
  apply (interpolation_single_pass Arch64 demo "en" [VString "i18n:loop"]
           "<" "0" ">" "loop" "<{0}>" 0).
  - reflexivity.
  - discriminate.
  - reflexivity.
  - reflexivity.
  - vm_compute. discriminate.
  - vm_compute. reflexivity.
Defined.

Lemma placeholder_out_of_range_kept_witness :
  exists sa sb,
    interpolateTranslations Arch64 demo "Value: {0} and " "en"
      [VString "hello"] = Ok sa /\
    interpolateTranslations Arch64 demo "" "en" [VString "hello"] = Ok sb /\
    interpolateTranslations Arch64 demo
      ("Value: {0} and " +:+ Regexp.token "5" +:+ "") "en"
      [VString "hello"] = Ok (sa +:+ Regexp.token "5" +:+ sb).
Proof.
  apply (placeholder_out_of_range_kept Arch64 demo "en" [VString "hello"]
           "Value: {0} and " "5" "").
  - reflexivity.
  - discriminate.
  - vm_compute. discriminate.
Defined.

Lemma i18nTranslate_total_witness :
  exists text,
    snd (i18nTranslate Arch32 demo "error" "it"
           [VString "i18n:system"; VInt 500; VNil; VBool true]) =
      Ok (text, None).
Proof.
  apply (i18nTranslate_total Arch32 demo "error" "it"
           [VString "i18n:system"; VInt 500; VNil; VBool true]
           {| readerCount := 0 |}).
  reflexivity.
Defined.

Lemma text_without_placeholder_unchanged_witness :
  snd (i18nTranslate Arch64 demo "system" "de"
         [VString "i18n:account"; VInt 7]) = Ok ("System", None).
Proof.
  apply (text_without_placeholder_unchanged Arch64 demo "system" "de"
           [VString "i18n:account"; VInt 7] {| readerCount := 0 |}
           "System").
  - reflexivity.
  - vm_compute. reflexivity.
  - left. reflexivity.
Defined.

Lemma placeholder_unparsable_kept_witness :
  snd (Strconv.Atoi Arch64 "99999999999999999999") =
    Some Strconv.ErrRange /\
  exists sa sb,
    interpolateTranslations Arch64 demo "a" "en" [VString "x"] = Ok sa /\
    interpolateTranslations Arch64 demo "b" "en" [VString "x"] = Ok sb /\
    interpolateTranslations Arch64 demo
      ("a" +:+ Regexp.token "99999999999999999999" +:+ "b") "en"
      [VString "x"] =
      Ok (sa +:+ Regexp.token "99999999999999999999" +:+ sb).
Proof.
  apply (placeholder_unparsable_kept Arch64 demo "en" [VString "x"]
           "a" "99999999999999999999" "b").
  - reflexivity.
  - discriminate.
  - vm_compute. reflexivity.
Defined.

Lemma plain_argument_verbatim_witness :
  exists sa sb,
    interpolateTranslations Arch64 demo "" "en"
      [VString "{1}"; VString "x"] = Ok sa /\
    interpolateTranslations Arch64 demo "" "en"
      [VString "{1}"; VString "x"] = Ok sb /\
    interpolateTranslations Arch64 demo ("" +:+ Regexp.token "0" +:+ "")
      "en" [VString "{1}"; VString "x"] = Ok (sa +:+ "{1}" +:+ sb).
Proof.
  apply (plain_argument_verbatim Arch64 demo "en"
           [VString "{1}"; VString "x"] "" "0" "" 0 (VString "{1}")).
  - reflexivity.
  - discriminate.
  - reflexivity.
  - reflexivity.
  - vm_compute. discriminate.
  - reflexivity.
Defined.

(** ** The calls of the repository's tests *)

Example test_invalid_placeholder :
  run demo "msg" "en" [VString "hello"] = Ok ("Value: hello and {5}", None).
Proof. vm_compute. reflexivity. Qed.

Example test_mixed_args :
  run demo "error" "en" [VString "i18n:system"; VInt 500; VString "alice"] =
    Ok ("Error: System with code 500 for user alice", None).
Proof. vm_compute. reflexivity. Qed.

Example test_nested_prefix :
  run demo "error.invalidAmount" "en" [VString "i18n:account"] =
    Ok ("Invalid amount: Account", None) /\
  run demo "error.invalidAmount" "de" [VString "i18n:account"] =
    Ok ("Betrag: Konto", None).
Proof. split; vm_compute; reflexivity. Qed.

Example test_unknown_nested_key :
  run demo "msg" "en" [VString "i18n:nonexistent"] =
    Ok ("Value: nonexistent and {5}", None).
Proof. vm_compute. reflexivity. Qed.

Example test_missing_key_and_language :
  run demo "nonexistent" "en" [] = Ok ("nonexistent", None) /\
  run demo "" "en" [] = Ok ("", None) /\
  run demo "hello" "de" [] = Ok ("hello", None).
Proof. repeat split; vm_compute; reflexivity. Qed.

Example test_float_argument :
  run demo "msg" "en" [VOther "19.99"] = Ok ("Value: 19.99 and {5}", None).
Proof. vm_compute. reflexivity. Qed.

(** A dictionary entry that refers to itself is expanded once. *)
Example test_cyclic_dictionary :
  run demo "loop" "en" [VString "i18n:loop"] = Ok ("<<{0}>>", None).
Proof. vm_compute. reflexivity. Qed.

(** The language of the call resolves the nested key although the
    template came from the ["en"] fallback. *)
Example test_nested_language_after_fallback :
  run demo "msg" "de" [VString "i18n:account"] =
    Ok ("Value: Konto and {5}", None).
Proof. vm_compute. reflexivity. Qed.

(** What is a token and what is not. *)
Example test_scan :
  interpolateTranslations Arch64 demo
    "{{0}} {} {a} {-1} {+1} { 0} {0}{1} {007} {01" "en"
    [VString "x"; VString "y"] =
    Ok "{x} {} {a} {-1} {+1} { 0} xy {007} {01".
Proof. vm_compute. reflexivity. Qed.

(** The same digits parse on one platform and not on the other. *)
Example test_int_width :
  Strconv.Atoi Arch32 "2147483648" = (2147483647%Z, Some Strconv.ErrRange) /\
  Strconv.Atoi Arch64 "2147483648" = (2147483648%Z, None) /\
  interpolateTranslations Arch32 demo "{2147483648}" "en" [VString "x"] =
    Ok "{2147483648}".
Proof. repeat split; vm_compute; reflexivity. Qed.

(** An instance that was never provisioned has no lock. *)
Example test_unprovisioned :
  run (with_mu None demo) "msg" "en" [] = Panic NilDereference.
Proof. reflexivity. Qed.

(** * Loading against the specification *)

Lemma unmarshal_string_error (v : JSON) :
  snd (Json.unmarshal_string v) = None <-> accepted_text v = true.
Proof. destruct v; simpl; split; congruence. Qed.

Lemma fold_texts_error (texts : list (string * JSON))
    (m : gmap string string) (saved : option error) :
  snd (fold_left
         (fun '(m, saved) '(lang, leaf) =>
            let '(text, err) := Json.unmarshal_string leaf in
            (<[lang := text]> m, Json.saveError saved err))
         texts (m, saved)) = None <->
  saved = None /\
  forallb (fun text => accepted_text (snd text)) texts = true.
Proof.
  revert m saved. induction texts as [|[lang leaf] texts IH];
    intros m saved; simpl.
  - tauto.
  - pose proof (unmarshal_string_error leaf) as Hleaf.
    destruct (Json.unmarshal_string leaf) as [text err]. simpl in Hleaf.
    rewrite IH, andb_true_iff, <- Hleaf.
    destruct saved; simpl; intuition congruence.
Qed.

Lemma unmarshal_entry_error (v : JSON) :
  snd (Json.unmarshal_entry v) = None <-> accepted_entry v = true.
Proof.
  destruct v; simpl; try (split; congruence).
  rewrite fold_texts_error. tauto.
Qed.

Lemma fold_members_error (members : list (string * JSON))
    (m : gmap string (gmap string string)) (saved : option error) :
  snd (fold_left
         (fun '(m', saved) '(key, val) =>
            let '(entry, err) := Json.unmarshal_entry val in
            (<[key := entry]> m', Json.saveError saved err))
         members (m, saved)) = None <->
  saved = None /\
  forallb (fun member => accepted_entry (snd member)) members = true.
Proof.
  revert m saved. induction members as [|[key val] members IH];
    intros m saved; cbn [fold_left forallb snd].
  - tauto.
  - pose proof (unmarshal_entry_error val) as Hval.
    destruct (Json.unmarshal_entry val) as [entry err]. cbn [snd] in Hval.
    rewrite IH, andb_true_iff, <- Hval.
    destruct saved; simpl; intuition congruence.
Qed.

(** The decoder returns no error exactly on the accepted values. *)
Lemma unmarshal_error (v : JSON) (m : gmap string (gmap string string)) :
  snd (Json.unmarshal v m) = None <-> accepted v = true.
Proof.
  destruct v; cbn [Json.unmarshal accepted snd]; try (split; congruence).
  rewrite fold_members_error. tauto.
Qed.

Lemma loadDictionary_kind (fs : FileSystem) (i : I18n) :
  option_map kind_of (snd (loadDictionary fs i)) = reported fs (DictFile i).
Proof.
  unfold loadDictionary, reported, Os.Open.
  destruct (fs !! DictFile i) as [[e|content]|].
  - now destruct e.
  - unfold Json.Decode. destruct content as [v| |[]|e]; try reflexivity.
    pose proof (unmarshal_error v (translations i)) as Hv.
    destruct (Json.unmarshal v (translations i)) as [t [err|]];
      cbn [snd option_map kind_of] in *.
    + destruct (accepted v); [|reflexivity].
      destruct Hv as [_ Hv]. now specialize (Hv eq_refl).
    + destruct Hv as [Hv _]. now rewrite (Hv eq_refl).
  - reflexivity.
Qed.

(** [Provision] leaves the lock allocated, whatever the load does. *)
Lemma Provision_allocates_mu (ctx_logger : Logger) (fs : FileSystem)
    (i : I18n) :
  exists m, mu (fst (Provision ctx_logger fs i)) = Some m.
Proof.
  unfold Provision.
  set (i2 := match mu (with_logger (Some ctx_logger) i) with
             | None => _
             | Some _ => _
             end).
  assert (H2 : exists m, mu i2 = Some m).
  { subst i2. cbn [with_logger mu]. destruct (mu i) as [m|] eqn:Hmu.
    - exists m. cbn [with_logger mu]. exact Hmu.
    - now eexists. }
  destruct H2 as [m Hm].
  assert (Hload : mu (fst (loadDictionary fs (with_translations ∅ i2))) =
                  Some m).
  { unfold loadDictionary.
    destruct (Os.Open fs _) as [file|err].
    - destruct (Json.Decode _ file _) as [t [e|]]; exact Hm.
    - destruct (Is_ErrNotExist err); exact Hm. }
  destruct (negb _); [|now exists m].
  destruct (loadDictionary fs (with_translations ∅ i2)) as [i4 [err|]];
    cbn [fst] in *; exists m; [exact Hload|].
  unfold log_info. now rewrite mu_log_if_set.
Qed.

(** The error of decoding a value is a type error, and the map decoded
    into plays no part in it. *)
Lemma saveError_type_error (saved new : option error) :
  type_error saved -> type_error new -> type_error (Json.saveError saved new).
Proof. now destruct saved. Qed.

Lemma unmarshal_string_type_error (v : JSON) :
  type_error (snd (Json.unmarshal_string v)).
Proof. now destruct v. Qed.

Lemma fold_texts_type_error (texts : list (string * JSON))
    (m : gmap string string) (saved : option error) :
  type_error saved ->
  type_error
    (snd (fold_left
            (fun '(m, saved) '(lang, leaf) =>
               let '(text, err) := Json.unmarshal_string leaf in
               (<[lang := text]> m, Json.saveError saved err))
            texts (m, saved))).
Proof.
  revert m saved. induction texts as [|[lang leaf] texts IH];
    intros m saved Hsaved; cbn [fold_left snd]; [exact Hsaved|].
  pose proof (unmarshal_string_type_error leaf) as Hleaf.
  destruct (Json.unmarshal_string leaf) as [text err]. cbn [snd] in Hleaf.
  apply IH. now apply saveError_type_error.
Qed.

Lemma unmarshal_entry_type_error (v : JSON) :
  type_error (snd (Json.unmarshal_entry v)).
Proof.
  destruct v; cbn [Json.unmarshal_entry snd type_error]; try exact I.
  now apply fold_texts_type_error.
Qed.

Lemma fold_members_type_error (members : list (string * JSON))
    (m : gmap string (gmap string string)) (saved : option error) :
  type_error saved ->
  type_error
    (snd (fold_left
            (fun '(m', saved) '(key, val) =>
               let '(entry, err) := Json.unmarshal_entry val in
               (<[key := entry]> m', Json.saveError saved err))
            members (m, saved))).
Proof.
  revert m saved. induction members as [|[key val] members IH];
    intros m saved Hsaved; cbn [fold_left snd]; [exact Hsaved|].
  pose proof (unmarshal_entry_type_error val) as Hval.
  destruct (Json.unmarshal_entry val) as [entry err]. cbn [snd] in Hval.
  apply IH. now apply saveError_type_error.
Qed.

Lemma unmarshal_type_error (v : JSON)
    (m : gmap string (gmap string string)) :
  type_error (snd (Json.unmarshal v m)).
Proof.
  destruct v; cbn [Json.unmarshal snd type_error]; try exact I.
  now apply fold_members_type_error.
Qed.

Lemma fold_members_error_indep (members : list (string * JSON))
    (m m' : gmap string (gmap string string)) (saved : option error) :
  snd (fold_left
         (fun '(m', saved) '(key, val) =>
            let '(entry, err) := Json.unmarshal_entry val in
            (<[key := entry]> m', Json.saveError saved err))
         members (m, saved)) =
  snd (fold_left
         (fun '(m', saved) '(key, val) =>
            let '(entry, err) := Json.unmarshal_entry val in
            (<[key := entry]> m', Json.saveError saved err))
         members (m', saved)).
Proof.
  revert m m' saved. induction members as [|[key val] members IH];
    intros m m' saved; cbn [fold_left snd]; [reflexivity|].
  destruct (Json.unmarshal_entry val) as [entry err]. apply IH.
Qed.

Lemma Decode_error_indep (name : string) (input : Stream)
    (m m' : gmap string (gmap string string)) :
  snd (Json.Decode name input m) = snd (Json.Decode name input m').
Proof.
  destruct input as [v| |[]|e]; try reflexivity.
  destruct v; try reflexivity. apply fold_members_error_indep.
Qed.

(** The error of a load is a matter of the file system and the path:
    the map, the lock and the logger of the instance play no part. *)
Lemma loadDictionary_error_indep (fs : FileSystem) (i j : I18n) :
  DictFile i = DictFile j ->
  snd (loadDictionary fs i) = snd (loadDictionary fs j).
Proof.
  intros Hpath. unfold loadDictionary. rewrite Hpath.
  destruct (Os.Open fs (DictFile j)) as [file|err].
  - pose proof (Decode_error_indep (DictFile j) file (translations i)
                  (translations j)) as Herr.
    destruct (Json.Decode _ file (translations i)) as [t [e|]];
      destruct (Json.Decode _ file (translations j)) as [t' [e'|]];
      cbn [snd] in *; congruence.
  - now destruct (Is_ErrNotExist err).
Qed.

(** The error of a load, by what [os.Open] and the decoder meet. *)
Lemma loadDictionary_opened (fs : FileSystem) (i : I18n)
    (content : Stream) :
  Os.Open fs (DictFile i) = inl content ->
  snd (loadDictionary fs i) =
    option_map ErrParseDict
      (snd (Json.Decode (DictFile i) content (translations i))).
Proof.
  intros Hopen. unfold loadDictionary. rewrite Hopen.
  now destruct (Json.Decode _ content _) as [t [e|]].
Qed.

Lemma loadDictionary_unopened (fs : FileSystem) (i : I18n) (e : Errno) :
  open_fails fs (DictFile i) e ->
  loadDictionary fs i =
    (i, Some (match e with
              | ENOENT => ErrDictNotFound (DictFile i)
              | _ => PathError "open" (DictFile i) e
              end)).
Proof.
  unfold open_fails, loadDictionary. intros ->. now destruct e.
Qed.

Lemma Open_outcome (fs : FileSystem) (path : string) :
  (exists e, open_fails fs path e) \/ exists content, Os.Open fs path = inl content.
Proof.
  unfold open_fails, Os.Open.
  destruct (fs !! path) as [[e|content]|]; eauto.
Qed.

(** C6, as amended.  [loadDictionary] returns the "not found" error
    exactly when [os.Open] fails with [ENOENT]; for every other failure
    of [os.Open] it returns the error of [os.Open] itself; either way it
    leaves the instance as it is.  When the file opens, the error is the
    error of
    the decoder in the "failed to parse" wrapper: a syntax error
    for input that is no JSON value, [io.EOF] or [io.ErrUnexpectedEOF] for
    input that ends, the error of the read when a read fails (a
    directory), a type error for a value the decoder does not accept; a
    value it accepts, null at every level included, loads without
    error.  On the empty object, [Provision] succeeds and the dictionary
    has no keys. *)
Theorem loadDictionary_outcome (ctx_logger : Logger) (fs : FileSystem)
    (i : I18n) :
  (snd (loadDictionary fs i) = Some (ErrDictNotFound (DictFile i)) <->
   open_fails fs (DictFile i) ENOENT) /\
  (forall e, open_fails fs (DictFile i) e ->
     loadDictionary fs i =
       (i, Some (match e with
                 | ENOENT => ErrDictNotFound (DictFile i)
                 | _ => PathError "open" (DictFile i) e
                 end))) /\
  (forall content, Os.Open fs (DictFile i) = inl content ->
     match content with
     | Value v =>
         if accepted v then snd (loadDictionary fs i) = None
         else exists val,
                snd (Json.unmarshal v (translations i)) =
                  Some (UnmarshalTypeError val) /\
                snd (loadDictionary fs i) =
                  Some (ErrParseDict (UnmarshalTypeError val))
     | Invalid =>
         snd (loadDictionary fs i) = Some (ErrParseDict SyntaxError)
     | Ends false => snd (loadDictionary fs i) = Some (ErrParseDict EOF)
     | Ends true =>
         snd (loadDictionary fs i) = Some (ErrParseDict ErrUnexpectedEOF)
     | Fails e =>
         snd (loadDictionary fs i) =
           Some (ErrParseDict (PathError "read" (DictFile i) e))
     end) /\
  (DictFile i <> "" ->
   fs !! DictFile i = Some (Opens (Value (JObject []))) ->
   snd (Provision ctx_logger fs i) = None /\
   translations (fst (Provision ctx_logger fs i)) = ∅).
Proof.
  split; [|split; [|split]].
  - destruct (Open_outcome fs (DictFile i)) as [[e He]|[content Hopen]].
    + rewrite (loadDictionary_unopened fs i e He). cbn [snd].
      unfold open_fails in *. rewrite He.
      destruct e; split; congruence.
    + rewrite (loadDictionary_opened fs i content Hopen).
      unfold open_fails. rewrite Hopen.
      destruct (snd (Json.Decode _ content _)); split; discriminate.
  - apply loadDictionary_unopened.
  - intros content Hopen.
    rewrite (loadDictionary_opened fs i content Hopen).
    destruct content as [v| |[]|e]; try reflexivity.
    cbn [Json.Decode].
    pose proof (unmarshal_error v (translations i)) as Hacc.
    pose proof (unmarshal_type_error v (translations i)) as Htype.
    destruct (snd (Json.unmarshal v (translations i))) as [err|].
    + destruct (accepted v); [destruct Hacc as [_ Hacc]; now discriminate Hacc|].
      destruct err; try contradiction. cbn [option_map]. eauto.
    + destruct Hacc as [Hacc _]. now rewrite (Hacc eq_refl).
  - intros Hpath Hfile. unfold Provision.
    set (i3 := with_translations ∅ _).
    assert (Hd : DictFile i3 = DictFile i).
    { subst i3. cbn [with_translations with_logger DictFile mu].
      now destruct (mu i). }
    assert (Ht : translations i3 = ∅) by reflexivity.
    rewrite Hd.
    destruct (String.eqb_spec (DictFile i) "") as [Heq|_]; [congruence|].
    cbn [negb]. unfold loadDictionary, Os.Open. rewrite Hd, Hfile.
    cbn [Json.Decode Json.unmarshal fold_left]. rewrite Ht.
    cbn [fst snd]. unfold log_info. rewrite translations_log_if_set.
    split; reflexivity.
Qed.

Lemma loadDictionary_outcome_witness :
  snd (Provision [] {["/etc/caddy/dict.json" := Opens (Value (JObject []))]}
         (configured "/etc/caddy/dict.json")) = None /\
  translations
    (fst (Provision []
            {["/etc/caddy/dict.json" := Opens (Value (JObject []))]}
            (configured "/etc/caddy/dict.json"))) = ∅.
Proof.
  apply (loadDictionary_outcome []
           {["/etc/caddy/dict.json" := Opens (Value (JObject []))]}
           (configured "/etc/caddy/dict.json")).
  - discriminate.
  - vm_compute. reflexivity.
Defined.

(** C6, as the specification states it, fails.  A directory opens and
    its reads fail: the specification promises a read error, the code
    reports a parse error.  The document [null] is no two-level
    structure: the specification promises a parse error, the code loads
    it. *)
Lemma loadDictionary_claim_counterexample :
  (claimed {["/srv/i18n" := Opens (Fails EISDIR)]} "/srv/i18n" =
     Some ReadError /\
   snd (loadDictionary {["/srv/i18n" := Opens (Fails EISDIR)]}
          (configured "/srv/i18n")) =
     Some (ErrParseDict (PathError "read" "/srv/i18n" EISDIR)) /\
   kind_of (ErrParseDict (PathError "read" "/srv/i18n" EISDIR)) =
     ParseError) /\
  (claimed {["/srv/dict.json" := Opens (Value JNull)]} "/srv/dict.json" =
     Some ParseError /\
   snd (loadDictionary {["/srv/dict.json" := Opens (Value JNull)]}
          (configured "/srv/dict.json")) = None).
Proof. repeat split; vm_compute; reflexivity. Qed.

(** ** The loads of the repository's tests *)

(** Nothing exists at a path below a file, and [os.Open] fails with
    [ENOTDIR]: the load returns that error as it is, not the "not found"
    error.  A dangling symbolic link exists, and the load returns "not
    found". *)
Example test_load_not_a_directory :
  snd (loadDictionary {["/etc/hosts/dict.json" := Unopenable ENOTDIR]}
         (configured "/etc/hosts/dict.json")) =
    Some (PathError "open" "/etc/hosts/dict.json" ENOTDIR) /\
  snd (loadDictionary {["/etc/caddy/link.json" := Unopenable ENOENT]}
         (configured "/etc/caddy/link.json")) =
    Some (ErrDictNotFound "/etc/caddy/link.json").
Proof. split; vm_compute; reflexivity. Qed.

Example test_provision :
  let r := Provision [] {["/tmp/test_dict.json" := Opens (Value test_document)]}
             (configured "/tmp/test_dict.json") in
  snd r = None /\ size (translations (fst r)) = 2 /\
  chosen_text (translations (fst r)) "hello" "de" = Some "Hallo".
Proof. repeat split; vm_compute; reflexivity. Qed.

Example test_provision_missing_file :
  snd (Provision [] ∅ (configured "/nonexistent/path/dict.json")) =
    Some (ErrLoadDict (ErrDictNotFound "/nonexistent/path/dict.json")).
Proof. vm_compute. reflexivity. Qed.

Example test_provision_invalid_json :
  snd (Provision [] {["/tmp/test_dict.json" := Opens Invalid]}
         (configured "/tmp/test_dict.json")) =
    Some (ErrLoadDict (ErrParseDict SyntaxError)).
Proof. vm_compute. reflexivity. Qed.

Example test_provision_no_dict_file :
  let r := Provision [] ∅ (configured "") in
  snd r = None /\ translations (fst r) = ∅.
Proof. split; reflexivity. Qed.

(** A leaf that is no string is a parse error, and so is a file of zero
    bytes. *)
Example test_provision_wrong_shape :
  snd (loadDictionary
         {["/d.json" :=
             Opens (Value (JObject [("k", JObject [("en", JNumber "5")])]))]}
         (configured "/d.json")) =
    Some (ErrParseDict (UnmarshalTypeError "number")) /\
  snd (loadDictionary {["/d.json" := Opens (Ends false)]}
         (configured "/d.json")) = Some (ErrParseDict EOF).
Proof. split; vm_compute; reflexivity. Qed.

(** * Further properties of the resolver *)

Lemma I18n_eq (i j : I18n) :
  DictFile i = DictFile j -> translations i = translations j ->
  mu i = mu j -> logger i = logger j -> i = j.
Proof. destruct i, j; simpl; intros; now subst. Qed.

Lemma logger_log_if_set (lvl : Level) (msg : string)
    (fs : list (string * string)) (i : I18n) :
  logger (log_if_set lvl msg fs i) =
    option_map
      (fun sink =>
         (sink ++ [{| level := lvl; message := msg; fields := fs |}])%list)
      (logger i).
Proof.
  unfold log_if_set. destruct (logger i) as [sink|] eqn:Hl; [reflexivity|].
  exact Hl.
Qed.

(** The scan with two functions that agree on every token of the text
    gives the same result. *)
Lemma ReplaceAllStringFunc_ext_tokens (f g : string -> result string)
    (src : string) :
  (forall a ds b, all_digits ds = true -> ds <> "" ->
                  src = a +:+ Regexp.token ds +:+ b ->
                  f (Regexp.token ds) = g (Regexp.token ds)) ->
  Regexp.ReplaceAllStringFunc src f = Regexp.ReplaceAllStringFunc src g.
Proof.
  remember (String.length src) as n eqn:Hn. revert src Hn.
  induction n as [n IH] using lt_wf_ind. intros src Hn Hfg.
  rewrite (ReplaceAllStringFunc_step f), (ReplaceAllStringFunc_step g).
  destruct (Regexp.match_here src) as [[ds rest]|] eqn:Hm.
  - destruct (match_here_inv _ _ _ Hm) as (Hs & Hd & Hne).
    rewrite (Hfg "" ds rest Hd Hne Hs).
    assert (Hlen : String.length rest < n).
    { rewrite Hn, Hs, length_append. unfold Regexp.token.
      rewrite !length_append. simpl. lia. }
    rewrite (IH _ Hlen rest eq_refl); [reflexivity|].
    intros a ds' b Hd' Hne' Hrest.
    apply (Hfg (Regexp.token ds +:+ a) ds' b Hd' Hne').
    now rewrite Hs, Hrest, append_assoc.
  - destruct src as [|c rest]; [reflexivity|].
    assert (Hlen : String.length rest < n) by (rewrite Hn; simpl; lia).
    rewrite (IH _ Hlen rest eq_refl); [reflexivity|].
    intros a ds' b Hd' Hne' Hrest.
    apply (Hfg (String c a) ds' b Hd' Hne').
    now rewrite Hrest.
Qed.

(** A function that gives every token back leaves the text as it is. *)
Lemma ReplaceAllStringFunc_fixed (f : string -> result string)
    (src : string) :
  (forall ds, all_digits ds = true -> ds <> "" ->
              f (Regexp.token ds) = Ok (Regexp.token ds)) ->
  Regexp.ReplaceAllStringFunc src f = Ok src.
Proof.
  intros Hf.
  remember (String.length src) as n eqn:Hn. revert src Hn.
  induction n as [n IH] using lt_wf_ind. intros src Hn.
  rewrite ReplaceAllStringFunc_step.
  destruct (Regexp.match_here src) as [[ds rest]|] eqn:Hm.
  - destruct (match_here_inv _ _ _ Hm) as (Hs & Hd & Hne).
    assert (Hlen : String.length rest < n).
    { rewrite Hn, Hs, length_append. unfold Regexp.token.
      rewrite !length_append. simpl. lia. }
    rewrite (Hf ds Hd Hne), (IH _ Hlen rest eq_refl), !rbind_Ok.
    now rewrite Hs.
  - destruct src as [|c rest]; [reflexivity|].
    assert (Hlen : String.length rest < n) by (rewrite Hn; simpl; lia).
    now rewrite (IH _ Hlen rest eq_refl).
Qed.

Section Further.

Variable platform : arch.

(** X1. A call changes nothing of the instance but the log: the path,
    the dictionary and the lock are afterwards what they were, also when
    the call panics. *)
Theorem i18nTranslate_changes_only_log (i : I18n) (key lang : string)
    (args : list any) :
  with_logger (logger i) (fst (i18nTranslate platform i key lang args)) = i.
Proof.
  unfold i18nTranslate. destruct (mu i) as [m|] eqn:Hmu.
  - pose proof (translate_locked_frame platform
                  (with_mu (Some (RLock m)) i) key lang args) as H.
    destruct (translate_locked platform (with_mu (Some (RLock m)) i)
                key lang args) as [i' r].
    cbn [fst] in *. destruct H as (Ht & Hm & Hd).
    cbn [with_mu translations mu DictFile] in *.
    apply I18n_eq; cbn [with_logger with_mu DictFile translations mu logger].
    + exact Hd.
    + exact Ht.
    + rewrite Hm, Hmu. cbn. now destruct m.
    + reflexivity.
  - cbn [fst]. apply I18n_eq; try reflexivity.
Qed.

(** X2. A call appends at most one event to the log and never touches
    the events already there.  Which event it is depends on the key and
    the language only, not on the arguments or the platform; when the
    requested language has an entry there is none. *)
Theorem i18nTranslate_log_append_only (i : I18n) (key lang : string) :
  exists events,
    length events <= 1 /\
    (forall entry text,
       translations i !! key = Some entry ->
       entry !! lang = Some text -> events = []) /\
    forall (p : arch) (args : list any),
      logger (fst (i18nTranslate p i key lang args)) =
        option_map (fun sink => (sink ++ events)%list) (logger i).
Proof.
  assert (Hnil : forall l : option Logger,
            l = option_map (fun sink => (sink ++ [])%list) l).
  { intros [sink|]; [|reflexivity]. cbn. now rewrite app_nil_r. }
  unfold i18nTranslate. destruct (mu i) as [m|] eqn:Hmu.
  2:{ exists []. split; [simpl; lia|]. split; [reflexivity|].
      intros p args. apply Hnil. }
  unfold translate_locked. cbn [with_mu translations].
  destruct (translations i !! key) as [entry|] eqn:Hkey.
  - destruct (entry !! lang) as [val|] eqn:Hlang.
    + exists []. split; [simpl; lia|]. split; [reflexivity|].
      intros p args. destruct (0 <? len args)%Z; apply Hnil.
    + destruct (entry !! "en") as [val|] eqn:Hen.
      * eexists [_]. split; [simpl; lia|]. split; [intros; congruence|].
        intros p args.
        destruct (0 <? len args)%Z; cbn [fst with_mu logger];
          now rewrite logger_log_if_set.
      * eexists [_]. split; [simpl; lia|]. split; [intros; congruence|].
        intros p args. cbn [fst with_mu logger].
        now rewrite logger_log_if_set.
  - eexists [_]. split; [simpl; lia|]. split; [intros; congruence|].
    intros p args. cbn [fst with_mu logger].
    now rewrite logger_log_if_set.
Qed.

(** X3. When the key is absent, or has neither the requested language
    nor ["en"], the key comes back as it is for every argument list: the
    fallback key is never interpolated, even when it holds tokens. *)
Theorem fallback_key_not_interpolated (i : I18n) (key lang : string)
    (args : list any) (m : RWMutex)
    (Hmu : mu i = Some m)
    (Hnone : chosen_text (translations i) key lang = None) :
  snd (i18nTranslate platform i key lang args) = Ok (key, None).
Proof.
  now rewrite (i18nTranslate_result platform i key lang args m Hmu), Hnone.
Qed.

(** X4. A nested reference ["i18n:" ++ k] is replaced by exactly the
    text that a call for [k] under the same language, without
    arguments, returns. *)
Theorem nested_reference_matches_direct_call (i : I18n) (lang : string)
    (args : list any) (a ds b k text : string) (n : nat) (m : RWMutex)
    (Hmu : mu i = Some m)
    (Hdigits : all_digits ds = true) (Hne : ds <> "")
    (Hindex : decimal ds = Z.of_nat n)
    (Harg : args !! n = Some (VString ("i18n:" +:+ k)))
    (Hlen : (len args <= maxInt platform)%Z)
    (Hdirect : snd (i18nTranslate platform i k lang []) = Ok (text, None)) :
  exists sa sb,
    interpolateTranslations platform i a lang args = Ok sa /\
    interpolateTranslations platform i b lang args = Ok sb /\
    interpolateTranslations platform i (a +:+ Regexp.token ds +:+ b)
      lang args = Ok (sa +:+ text +:+ sb).
Proof.
  apply interpolateTranslations_around; [assumption..|].
  rewrite (replacement_in_range platform i lang args ds n _
             Hdigits Hne Hindex Harg Hlen).
  rewrite HasPrefix_append, TrimPrefix_append.
  rewrite (i18nTranslate_result platform i k lang [] m Hmu) in Hdirect.
  unfold nested_text. change (0 <? len [])%Z with false in Hdirect.
  destruct (chosen_text (translations i) k lang); congruence.
Qed.

(** X5. With an empty argument list [interpolateTranslations] returns
    the template as it is: every token is out of range.  The guard
    [len(args) > 0] of the caller saves the scan and changes no
    result. *)
Theorem interpolateTranslations_no_args (i : I18n) (tmpl lang : string) :
  interpolateTranslations platform i tmpl lang [] = Ok tmpl.
Proof.
  unfold interpolateTranslations. apply ReplaceAllStringFunc_fixed.
  intros ds Hd Hne. apply replacement_out_of_range; [assumption..|].
  apply decimal_nonneg, Hd.
Qed.

(** X6. Only the number a token denotes matters: two tokens with the
    same in-range index, such as [{0}] and [{00}], are replaced alike. *)
Theorem equal_indices_replaced_alike (i : I18n) (lang : string)
    (args : list any) (a b ds ds' : string) (n : nat)
    (Hdigits : all_digits ds = true) (Hne : ds <> "")
    (Hdigits' : all_digits ds' = true) (Hne' : ds' <> "")
    (Hindex : decimal ds = Z.of_nat n)
    (Hindex' : decimal ds' = Z.of_nat n)
    (Hin : n < length args)
    (Hlen : (len args <= maxInt platform)%Z) :
  interpolateTranslations platform i (a +:+ Regexp.token ds +:+ b)
    lang args =
  interpolateTranslations platform i (a +:+ Regexp.token ds' +:+ b)
    lang args.
Proof.
  destruct (lookup_lt_is_Some_2 args n Hin) as [arg Harg].
  unfold interpolateTranslations.
  rewrite (ReplaceAllStringFunc_around _ a ds b Hdigits Hne).
  rewrite (ReplaceAllStringFunc_around _ a ds' b Hdigits' Hne').
  rewrite (replacement_in_range platform i lang args ds n arg
             Hdigits Hne Hindex Harg Hlen).
  now rewrite (replacement_in_range platform i lang args ds' n arg
                 Hdigits' Hne' Hindex' Harg Hlen).
Qed.

End Further.

(** ** The two platforms *)

Lemma replacement_platform (i : I18n) (lang : string) (args : list any)
    (ds : string) :
  (len args <= maxInt Arch32)%Z ->
  all_digits ds = true -> ds <> "" ->
  replacement Arch32 i lang args (Regexp.token ds) =
    replacement Arch64 i lang args (Regexp.token ds).
Proof.
  intros Hlen Hd Hne.
  rewrite (replacement_token Arch32 i lang args ds Hd Hne).
  rewrite (replacement_token Arch64 i lang args ds Hd Hne).
  assert (H32 : (maxInt Arch32 < maxInt Arch64)%Z) by reflexivity.
  destruct (Z.ltb_spec (maxInt Arch32) (decimal ds));
    destruct (Z.ltb_spec (maxInt Arch64) (decimal ds));
    destruct (Z.leb_spec (len args) (decimal ds));
    try reflexivity; lia.
Qed.

(** X7. The width of [int] does not show: when the arguments fit a
    32-bit slice, a call gives on a 32-bit platform what it gives on a
    64-bit platform, the result and the instance alike. *)
Theorem i18nTranslate_platform_independent (i : I18n) (key lang : string)
    (args : list any)
    (Hlen : (len args <= maxInt Arch32)%Z) :
  i18nTranslate Arch32 i key lang args =
    i18nTranslate Arch64 i key lang args.
Proof.
  assert (Hinterp : forall j tmpl,
            interpolateTranslations Arch32 j tmpl lang args =
              interpolateTranslations Arch64 j tmpl lang args).
  { intros j tmpl. unfold interpolateTranslations.
    apply ReplaceAllStringFunc_ext_tokens.
    intros a ds b Hd Hne _. now apply replacement_platform. }
  unfold i18nTranslate. destruct (mu i) as [m|]; [|reflexivity].
  assert (Hbody : forall j,
            translate_locked Arch32 j key lang args =
              translate_locked Arch64 j key lang args).
  { intros j. unfold translate_locked.
    destruct (translations j !! key) as [entry|]; [|reflexivity].
    destruct (entry !! lang) as [val|].
    - destruct (0 <? len args)%Z; [|reflexivity]. now rewrite Hinterp.
    - destruct (entry !! "en") as [val|]; [|reflexivity].
      destruct (0 <? len args)%Z; [|reflexivity]. now rewrite Hinterp. }
  now rewrite Hbody.
Qed.

(** ** Provision, then calls *)

Lemma loadDictionary_DictFile (fs : FileSystem) (i : I18n) :
  DictFile (fst (loadDictionary fs i)) = DictFile i.
Proof.
  unfold loadDictionary. destruct (Os.Open fs (DictFile i)) as [file|err].
  - now destruct (Json.Decode (DictFile i) file (translations i))
      as [t [e|]].
  - now destruct (Is_ErrNotExist err).
Qed.

Lemma loadDictionary_translations (fs : FileSystem) (i : I18n) :
  translations (fst (loadDictionary fs i)) =
    match fs !! DictFile i with
    | Some (Opens content) =>
        fst (Json.Decode (DictFile i) content (translations i))
    | _ => translations i
    end.
Proof.
  unfold loadDictionary, Os.Open.
  destruct (fs !! DictFile i) as [[f|content]|]; try reflexivity.
  - now destruct f.
  - now destruct (Json.Decode (DictFile i) content (translations i))
      as [t [e|]].
Qed.

(** [Provision] by its two cases: no path, and a path that is loaded
    into an empty dictionary. *)
Lemma Provision_cases (ctx_logger : Logger) (fs : FileSystem) (i : I18n) :
  (DictFile i = "" /\
   snd (Provision ctx_logger fs i) = None /\
   translations (fst (Provision ctx_logger fs i)) = ∅) \/
  (DictFile i <> "" /\
   exists i3,
     DictFile i3 = DictFile i /\ translations i3 = ∅ /\
     snd (Provision ctx_logger fs i) =
       option_map ErrLoadDict (snd (loadDictionary fs i3)) /\
     translations (fst (Provision ctx_logger fs i)) =
       translations (fst (loadDictionary fs i3))).
Proof.
  unfold Provision.
  set (i3 := with_translations ∅ _).
  assert (Hd : DictFile i3 = DictFile i).
  { subst i3. cbn [with_translations with_logger DictFile mu].
    now destruct (mu i). }
  assert (Ht : translations i3 = ∅) by reflexivity.
  rewrite Hd.
  destruct (String.eqb_spec (DictFile i) "") as [Heq|Hne]; cbn [negb].
  - left. now repeat split.
  - right. split; [exact Hne|]. exists i3.
    split; [exact Hd|]. split; [exact Ht|].
    destruct (loadDictionary fs i3) as [i4 [err|]]; cbn [fst snd option_map].
    + now split.
    + split; [reflexivity|]. unfold log_info.
      now rewrite translations_log_if_set.
Qed.

Lemma Provision_translations (ctx_logger : Logger) (fs : FileSystem)
    (i : I18n) (v : JSON) :
  DictFile i <> "" ->
  fs !! DictFile i = Some (Opens (Value v)) ->
  translations (fst (Provision ctx_logger fs i)) = fst (Json.unmarshal v ∅).
Proof.
  intros Hne Hfile.
  destruct (Provision_cases ctx_logger fs i)
    as [(Heq & _)|(_ & i3 & Hd & Ht & _ & Htr)]; [congruence|].
  rewrite Htr, loadDictionary_translations, Hd, Hfile, Ht. reflexivity.
Qed.

(** X8. An instance that went through [Provision] never panics in a
    call, whether or not the load succeeded: [Provision] leaves the lock
    allocated, and every call returns a string and a nil error. *)
Theorem provisioned_instance_never_panics (ctx_logger : Logger)
    (fs : FileSystem) (i : I18n) (p : arch) (key lang : string)
    (args : list any) :
  exists text,
    snd (i18nTranslate p (fst (Provision ctx_logger fs i)) key lang args) =
      Ok (text, None).
Proof.
  destruct (Provision_allocates_mu ctx_logger fs i) as [m Hmu].
  rewrite (i18nTranslate_result p _ key lang args m Hmu).
  destruct (chosen_text _ key lang) as [val|]; [|eauto].
  destruct (0 <? len args)%Z; [|eauto].
  destruct (interpolateTranslations_returns p
              (fst (Provision ctx_logger fs i)) lang args val) as [out ->].
  rewrite rbind_Ok. eauto.
Qed.

(** X9. Without a configured path, and with a file that holds the empty
    object, [Provision] succeeds and every call afterwards returns its
    key, for every language and every argument list. *)
Theorem empty_dictionary_returns_keys (ctx_logger : Logger)
    (fs : FileSystem) (i : I18n)
    (Hempty : DictFile i = "" \/
              fs !! DictFile i = Some (Opens (Value (JObject [])))) :
  snd (Provision ctx_logger fs i) = None /\
  forall (p : arch) (key lang : string) (args : list any),
    snd (i18nTranslate p (fst (Provision ctx_logger fs i)) key lang args) =
      Ok (key, None).
Proof.
  assert (H : snd (Provision ctx_logger fs i) = None /\
              translations (fst (Provision ctx_logger fs i)) = ∅).
  { destruct (Provision_cases ctx_logger fs i)
      as [(Heq & Herr & Htr)|(Hne & i3 & Hd & Ht & Herr & Htr)];
      [now split|].
    destruct Hempty as [Heq|Hfile]; [congruence|].
    rewrite Herr, Htr, loadDictionary_translations.
    unfold loadDictionary, Os.Open. rewrite Hd, Hfile, Ht.
    now split. }
  destruct H as [Herr Htr]. split; [exact Herr|].
  intros p key lang args.
  destruct (Provision_allocates_mu ctx_logger fs i) as [m Hmu].
  rewrite (i18nTranslate_result p _ key lang args m Hmu), Htr.
  reflexivity.
Qed.

(** X10. [Provision] succeeds exactly when no path is configured or the
    file at the path opens and holds a value the decoder accepts; and it
    returns an error exactly when a path is configured and
    [loadDictionary] returns an error for it, and then its error is that
    error of [loadDictionary] in the "failed to load" wrapper, once. *)
Theorem Provision_succeeds_iff (ctx_logger : Logger) (fs : FileSystem)
    (i : I18n) :
  (snd (Provision ctx_logger fs i) = None <->
   DictFile i = "" \/
   exists v, fs !! DictFile i = Some (Opens (Value v)) /\
             accepted v = true) /\
  (forall err,
     snd (Provision ctx_logger fs i) = Some err <->
     DictFile i <> "" /\
     exists cause, snd (loadDictionary fs i) = Some cause /\
                   err = ErrLoadDict cause).
Proof.
  destruct (Provision_cases ctx_logger fs i)
    as [(Heq & Herr & _)|(Hne & i3 & Hd & Ht & Herr & _)].
  - rewrite Herr. split; [split; [now left | reflexivity]|].
    intros err. split; [discriminate|]. now intros [Hne _].
  - rewrite Herr, (loadDictionary_error_indep fs i3 i Hd).
    pose proof (loadDictionary_kind fs i) as Hkind.
    unfold reported in Hkind. split.
    + destruct (snd (loadDictionary fs i)) as [err|];
        cbn [option_map] in *.
      * split; [discriminate|]. intros [Heq|(v & Hfile & Hacc)];
          [congruence|].
        rewrite Hfile, Hacc in Hkind. discriminate.
      * split; [|reflexivity]. intros _. right.
        destruct (fs !! DictFile i) as [[e|[v| |[]|e]]|];
          try discriminate; [now destruct e|].
        exists v. split; [reflexivity|].
        now destruct (accepted v).
    + intros err. destruct (snd (loadDictionary fs i)) as [cause|];
        cbn [option_map].
      * split.
        -- intros [= <-]. split; [exact Hne|]. now exists cause.
        -- intros (_ & cause' & [= <-] & ->). reflexivity.
      * split; [discriminate|]. now intros (_ & cause & Hcause & _).
Qed.

(** ** What a load stores *)

Lemma fold_texts_fst (texts : list (string * JSON))
    (m : gmap string string) (saved : option error) :
  fst (fold_left
         (fun '(m, saved) '(lang, leaf) =>
            let '(text, err) := Json.unmarshal_string leaf in
            (<[lang := text]> m, Json.saveError saved err))
         texts (m, saved)) =
  fold_left
    (fun m' text => <[fst text := fst (Json.unmarshal_string (snd text))]> m')
    texts m.
Proof.
  revert m saved. induction texts as [|[lang leaf] texts IH];
    intros m saved; cbn [fold_left fst snd]; [reflexivity|].
  destruct (Json.unmarshal_string leaf) as [text err] eqn:Hleaf.
  now rewrite IH.
Qed.

Lemma fold_members_fst (members : list (string * JSON))
    (m : gmap string (gmap string string)) (saved : option error) :
  fst (fold_left
         (fun '(m', saved) '(key, val) =>
            let '(entry, err) := Json.unmarshal_entry val in
            (<[key := entry]> m', Json.saveError saved err))
         members (m, saved)) =
  fold_left
    (fun m' member =>
       <[fst member := fst (Json.unmarshal_entry (snd member))]> m')
    members m.
Proof.
  revert m saved. induction members as [|[key val] members IH];
    intros m saved; cbn [fold_left fst snd]; [reflexivity|].
  destruct (Json.unmarshal_entry val) as [entry err] eqn:Hval.
  now rewrite IH.
Qed.

(** The member that is the last one with its name is the one stored. *)
Lemma fold_insert_last {V : Type} (f : JSON -> V)
    (pre post : list (string * JSON)) (name : string) (v : JSON)
    (m : gmap string V) :
  forallb (fun member => negb (String.eqb (fst member) name)) post = true ->
  fold_left (fun m' member => <[fst member := f (snd member)]> m')
    (pre ++ (name, v) :: post) m !! name = Some (f v).
Proof.
  intros Hpost. rewrite fold_left_app. cbn [fold_left fst snd].
  set (m1 := fold_left _ pre m). clearbody m1.
  assert (Hkeep : forall m2 : gmap string V,
            fold_left (fun m' member => <[fst member := f (snd member)]> m')
              post m2 !! name = m2 !! name).
  { induction post as [|[name' v'] post IH]; intros m2; [reflexivity|].
    cbn [forallb fst] in Hpost. apply andb_true_iff in Hpost as [Hn Hpost].
    cbn [fold_left fst snd]. rewrite (IH Hpost).
    apply negb_true_iff, String.eqb_neq in Hn.
    now rewrite lookup_insert_ne. }
  rewrite Hkeep. apply lookup_insert_eq.
Qed.

(** X11. What a load stores is what a call returns.  For the member of
    the document that is the last one named [key], and inside it the
    last one named [lang], a call for [key] and [lang] on the provisioned
    instance returns that member's string: a later duplicate replaces an
    earlier one. *)
Theorem loaded_text_is_returned (ctx_logger : Logger) (fs : FileSystem)
    (i : I18n) (p : arch) (key lang text : string)
    (pre post tpre tpost : list (string * JSON))
    (Hpath : DictFile i <> "")
    (Hfile : fs !! DictFile i =
             Some (Opens (Value (JObject
               (pre ++ (key, JObject (tpre ++ (lang, JString text) :: tpost))
                  :: post)))))
    (Hpost : forallb (fun member => negb (String.eqb (fst member) key))
               post = true)
    (Htpost : forallb (fun member => negb (String.eqb (fst member) lang))
                tpost = true) :
  snd (i18nTranslate p (fst (Provision ctx_logger fs i)) key lang []) =
    Ok (text, None).
Proof.
  destruct (Provision_allocates_mu ctx_logger fs i) as [m Hmu].
  rewrite (i18nTranslate_result p _ key lang [] m Hmu).
  rewrite (Provision_translations ctx_logger fs i _ Hpath Hfile).
  cbn [Json.unmarshal]. rewrite fold_members_fst. unfold chosen_text.
  rewrite (fold_insert_last (fun v => fst (Json.unmarshal_entry v))
             pre post key _ ∅ Hpost).
  cbn [Json.unmarshal_entry]. rewrite fold_texts_fst.
  rewrite (fold_insert_last (fun v => fst (Json.unmarshal_string v))
             tpre tpost lang _ ∅ Htpost).
  reflexivity.
Qed.

(** * The configuration block *)

Section Dispenser.

Import Caddyfile.

Lemma advanced_refl (d : Dispenser) : advanced d d.
Proof. split; [reflexivity | lia]. Qed.

Lemma advanced_trans (d1 d2 d3 : Dispenser) :
  advanced d1 d2 -> advanced d2 d3 -> advanced d1 d3.
Proof. intros [Ht1 Hc1] [Ht2 Hc2]. split; [congruence | lia]. Qed.

Lemma consumed_left (d d' : Dispenser) :
  advanced d d' -> consumed d d' -> tokens_left d' < tokens_left d.
Proof.
  intros [Ht _] [Hc Hn]. unfold tokens_left, count in *. rewrite Ht. lia.
Qed.

Lemma advanced_left (d d' : Dispenser) :
  advanced d d' -> tokens_left d' <= tokens_left d.
Proof. intros [Ht Hc]. unfold tokens_left, count. rewrite Ht. lia. Qed.

Lemma Next_advances (d d' : Dispenser) (b : bool) :
  Next d = (b, d') ->
  advanced d d' /\ nesting d' = nesting d /\ (b = true -> consumed d d').
Proof.
  unfold Next, advanced, consumed.
  destruct (Z.ltb_spec (cursor d) (count d - 1)); intros [= <- <-];
    cbn [set_cursor tokens cursor nesting]; repeat split;
    try discriminate; lia.
Qed.

Lemma nextOnSameLine_advances (d d' : Dispenser) (b : bool) :
  nextOnSameLine d = (b, d') ->
  advanced d d' /\ nesting d' = nesting d /\ (b = true -> consumed d d') /\
  (b = false -> d' = d).
Proof.
  unfold nextOnSameLine, advanced, consumed.
  pose proof (Nat2Z.is_nonneg (length (tokens d))) as Hcount.
  fold (count d) in Hcount.
  destruct (Z.ltb_spec (cursor d) 0).
  { intros [= <- <-]. cbn [set_cursor tokens cursor nesting].
    repeat split; try discriminate; lia. }
  destruct (Z.leb_spec (count d - 1) (cursor d)).
  { intros [= <- <-]. repeat split; try discriminate; lia. }
  destruct (token_at d (cursor d)) as [curr|];
    [|intros [= <- <-]; repeat split; try discriminate; lia].
  destruct (token_at d (cursor d + 1)) as [next|];
    [|intros [= <- <-]; repeat split; try discriminate; lia].
  destruct (isNextOnNewLine curr next); intros [= <- <-];
    cbn [negb set_cursor tokens cursor nesting];
    repeat split; try discriminate; lia.
Qed.

Lemma Val_same_place (d d' : Dispenser) :
  tokens d' = tokens d -> cursor d' = cursor d -> Val d' = Val d.
Proof.
  intros Ht Hc. unfold Val, count, token_at. now rewrite Ht, Hc.
Qed.

Lemma NextArg_advances (d d' : Dispenser) (b : bool) :
  NextArg d = (b, d') ->
  advanced d d' /\ nesting d' = nesting d /\
  (b = true -> consumed d d' /\ Val d' <> "{") /\
  (b = false -> Val d' = Val d).
Proof.
  unfold NextArg.
  destruct (nextOnSameLine d) as [same d1] eqn:Hsame.
  destruct (nextOnSameLine_advances _ _ _ Hsame)
    as ([Ht Hc] & Hn & Hcons & Hstay).
  destruct same; cbn [negb].
  - destruct (Hcons eq_refl) as [Hlt Hin].
    destruct (String.eqb_spec (Val d1) "{") as [Hbrace|Hbrace];
      intros [= <- <-]; unfold advanced, consumed;
      cbn [set_cursor tokens cursor nesting].
    + repeat split; try discriminate; try lia; try assumption.
      intros _. apply Val_same_place; cbn [set_cursor tokens cursor];
        [assumption|].
      unfold nextOnSameLine in Hsame.
      destruct (cursor d <? 0)%Z;
        [injection Hsame as <-; cbn [set_cursor cursor]; lia|].
      destruct (count d - 1 <=? cursor d)%Z; [discriminate|].
      destruct (token_at d (cursor d)); [|discriminate].
      destruct (token_at d (cursor d + 1)); [|discriminate].
      destruct (negb _); [|discriminate].
      injection Hsame as <-. cbn [set_cursor cursor]. lia.
    + repeat split; try discriminate; try lia; try assumption.
  - intros [= <- <-]. rewrite (Hstay eq_refl).
    repeat split; try discriminate; try lia.
Qed.

Lemma NextBlock_advances (n : Z) (d d' : Dispenser) (b : bool) :
  NextBlock n d = (b, d') ->
  advanced d d' /\ (b = true -> consumed d d').
Proof.
  unfold NextBlock. destruct (n <? nesting d)%Z.
  - destruct (Next d) as [more d1] eqn:Hnext.
    destruct (Next_advances _ _ _ Hnext) as (Hadv1 & _ & Hcons1).
    destruct more; cbn [negb].
    2:{ intros [= <- <-]. split; [assumption | discriminate]. }
    destruct (Hcons1 eq_refl) as [Hlt Hin].
    assert (Hopen : forall d2, advanced d1 d2 ->
              advanced d1
                (if String.eqb (Val d2) "{" then
                   let '(same, d3) := nextOnSameLine d2 in
                   if negb same then set_nesting (nesting d3 + 1) d3 else d3
                 else d2)).
    { intros d2 Hadv2. destruct (String.eqb (Val d2) "{"); [|assumption].
      destruct (nextOnSameLine d2) as [same d3] eqn:Hsame.
      destruct (nextOnSameLine_advances _ _ _ Hsame) as (Hadv3 & _).
      pose proof (advanced_trans _ _ _ Hadv2 Hadv3) as Hadv.
      destruct same; cbn [negb]; [assumption|].
      destruct Hadv as [Ht Hc]. split; assumption. }
    intros [= <- <-].
    assert (Hadv4 : advanced d1
              (if String.eqb (Val d1) "}" then
                 let '(same, d2) := nextOnSameLine d1 in
                 if negb same then set_nesting (nesting d2 - 1) d2
                 else
                   if String.eqb (Val d2) "{" then
                     let '(same0, d3) := nextOnSameLine d2 in
                     if negb same0 then set_nesting (nesting d3 + 1) d3
                     else d3
                   else d2
               else
                 if String.eqb (Val d1) "{" then
                   let '(same, d3) := nextOnSameLine d1 in
                   if negb same then set_nesting (nesting d3 + 1) d3
                   else d3
                 else d1)).
    { destruct (String.eqb (Val d1) "}").
      - destruct (nextOnSameLine d1) as [same d2] eqn:Hsame.
        destruct (nextOnSameLine_advances _ _ _ Hsame) as (Hadv2 & _).
        destruct same; cbn [negb].
        + apply (Hopen d2 Hadv2).
        + destruct Hadv2 as [Ht Hc]. split; assumption.
      - apply (Hopen d1 (advanced_refl d1)). }
    pose proof (advanced_trans _ _ _ Hadv1 Hadv4) as Hadv.
    split; [exact Hadv|]. intros _.
    destruct Hadv1 as [_ Hc1], Hadv4 as [_ Hc4].
    split; [lia | assumption].
  - destruct (nextOnSameLine d) as [same d1] eqn:Hsame.
    destruct (nextOnSameLine_advances _ _ _ Hsame)
      as (Hadv1 & _ & Hcons1 & _).
    destruct same; cbn [negb].
    2:{ intros [= <- <-]. split; [assumption | discriminate]. }
    destruct (Hcons1 eq_refl) as [Hlt Hin].
    destruct (negb (String.eqb (Val d1) "{")).
    { intros [= <- <-]. split; [|discriminate].
      destruct Hadv1 as [Ht Hc]. split; cbn [set_cursor tokens cursor];
        [assumption | lia]. }
    destruct (Next d1) as [more d2] eqn:Hnext.
    destruct (Next_advances _ _ _ Hnext) as (Hadv2 & _).
    pose proof (advanced_trans _ _ _ Hadv1 Hadv2) as Hadv.
    destruct (String.eqb (Val d2) "}"); intros [= <- <-].
    + split; [assumption | discriminate].
    + destruct Hadv as [Ht Hc], Hadv2 as [_ Hc2].
      split; [split; assumption|]. intros _. split; [|assumption].
      cbn [set_nesting cursor]. lia.
Qed.

Lemma same_but_path_refl (i : I18n) : same_but_path i i.
Proof. now repeat split. Qed.

Lemma same_but_path_trans (i1 i2 i3 : I18n) :
  same_but_path i1 i2 -> same_but_path i2 i3 -> same_but_path i1 i3.
Proof.
  intros (Ht1 & Hm1 & Hl1) (Ht2 & Hm2 & Hl2). repeat split; congruence.
Qed.

Lemma block_loop_ends (fuel : nat) (n : Z) (i : I18n) (d : Dispenser) :
  tokens_left d < fuel ->
  match block_loop fuel n i d with
  | Finished i' d' => advanced d d' /\ same_but_path i i'
  | Returned err i' d' =>
      advanced d d' /\ same_but_path i i' /\ possible_error err
  | OutOfFuel => False
  end.
Proof.
  revert i d. induction fuel as [|fuel IH]; intros i d Hfuel; [lia|].
  cbn [block_loop].
  destruct (NextBlock n d) as [more d1] eqn:Hblock.
  destruct (NextBlock_advances _ _ _ _ Hblock) as [Hadv1 Hcons1].
  destruct more; cbn [negb]; [|split; [assumption | apply same_but_path_refl]].
  pose proof (consumed_left _ _ Hadv1 (Hcons1 eq_refl)) as Hleft1.
  destruct (String.eqb_spec (Val d1) "dict_file") as [Hval|Hval].
  2:{ split; [assumption|]. split; [apply same_but_path_refl | assumption]. }
  destruct (NextArg d1) as [found d2] eqn:Harg1.
  destruct (NextArg_advances _ _ _ Harg1) as (Hadv2 & _ & Hfound & Hnone).
  pose proof (advanced_trans _ _ _ Hadv1 Hadv2) as Hadv12.
  destruct found; cbn [negb].
  2:{ split; [assumption|]. split; [apply same_but_path_refl|].
      unfold ArgErr. rewrite (Hnone eq_refl), Hval. cbn. discriminate. }
  destruct (NextArg d2) as [extra d3] eqn:Harg2.
  destruct (NextArg_advances _ _ _ Harg2) as (Hadv3 & _ & Hextra & _).
  pose proof (advanced_trans _ _ _ Hadv12 Hadv3) as Hadv13.
  destruct extra.
  - split; [assumption|]. split; [now repeat split|].
    destruct (Hextra eq_refl) as [_ Hbrace]. unfold ArgErr.
    destruct (String.eqb_spec (Val d3) "{"); [contradiction | assumption].
  - assert (Hfuel3 : tokens_left d3 < fuel).
    { pose proof (advanced_left _ _ (advanced_trans _ _ _ Hadv2 Hadv3)).
      lia. }
    specialize (IH (with_DictFile (Val d2) i) d3 Hfuel3).
    destruct (block_loop fuel n (with_DictFile (Val d2) i) d3)
      as [i' d'|err i' d'|]; [| |contradiction].
    + destruct IH as [Hadv Hframe].
      split; [exact (advanced_trans _ _ _ Hadv13 Hadv) | exact Hframe].
    + destruct IH as (Hadv & Hframe & Herr).
      split; [exact (advanced_trans _ _ _ Hadv13 Hadv)|].
      split; [exact Hframe | exact Herr].
Qed.

Lemma next_loop_ends (fuel : nat) (i : I18n) (d : Dispenser) :
  tokens_left d < fuel ->
  match next_loop fuel i d with
  | Finished i' d' => advanced d d' /\ same_but_path i i'
  | Returned err i' d' =>
      advanced d d' /\ same_but_path i i' /\ possible_error err
  | OutOfFuel => False
  end.
Proof.
  revert i d. induction fuel as [|fuel IH]; intros i d Hfuel; [lia|].
  cbn [next_loop].
  destruct (Next d) as [more d1] eqn:Hnext.
  destruct (Next_advances _ _ _ Hnext) as (Hadv1 & _ & Hcons1).
  destruct more; cbn [negb]; [|split; [assumption | apply same_but_path_refl]].
  pose proof (consumed_left _ _ Hadv1 (Hcons1 eq_refl)) as Hleft1.
  pose proof (block_loop_ends (S (tokens_left d1)) (Nesting d1) i d1
                (Nat.lt_succ_diag_r _)) as Hblock.
  destruct (block_loop (S (tokens_left d1)) (Nesting d1) i d1)
    as [i1 d2|err i1 d2|]; [| |contradiction].
  - destruct Hblock as [Hadv2 Hframe1].
    assert (Hfuel2 : tokens_left d2 < fuel).
    { pose proof (advanced_left _ _ Hadv2). lia. }
    specialize (IH i1 d2 Hfuel2).
    pose proof (advanced_trans _ _ _ Hadv1 Hadv2) as Hadv12.
    destruct (next_loop fuel i1 d2) as [i' d'|err i' d'|];
      [| |contradiction].
    + destruct IH as [Hadv Hframe].
      split; [exact (advanced_trans _ _ _ Hadv12 Hadv)|].
      exact (same_but_path_trans _ _ _ Hframe1 Hframe).
    + destruct IH as (Hadv & Hframe & Herr).
      split; [exact (advanced_trans _ _ _ Hadv12 Hadv)|].
      split; [exact (same_but_path_trans _ _ _ Hframe1 Hframe) | exact Herr].
  - destruct Hblock as (Hadv2 & Hframe & Herr).
    split; [exact (advanced_trans _ _ _ Hadv1 Hadv2)|]. now split.
Qed.

(** ** Calls at a known place *)

Lemma lookup_count (d : Dispenser) (c : Z) (t : Token) :
  (0 <= c)%Z -> tokens d !! Z.to_nat c = Some t -> (c < count d)%Z.
Proof.
  intros Hc Ht. apply lookup_lt_Some in Ht. unfold count. lia.
Qed.

Lemma token_at_lookup (d : Dispenser) (c : Z) (t : Token) :
  (0 <= c)%Z -> tokens d !! Z.to_nat c = Some t -> token_at d c = Some t.
Proof.
  intros Hc Ht. unfold token_at.
  destruct (Z.ltb_spec c 0); [lia | assumption].
Qed.

Lemma Val_at (d : Dispenser) (t : Token) :
  (0 <= cursor d)%Z -> tokens d !! Z.to_nat (cursor d) = Some t ->
  Val d = Text t.
Proof.
  intros Hc Ht. unfold Val.
  pose proof (lookup_count _ _ _ Hc Ht).
  rewrite (token_at_lookup _ _ _ Hc Ht).
  destruct (Z.ltb_spec (cursor d) 0); [lia|].
  destruct (Z.leb_spec (count d) (cursor d)); [lia | reflexivity].
Qed.

Lemma CurrentFile_at (d : Dispenser) (t : Token) :
  (0 <= cursor d)%Z -> tokens d !! Z.to_nat (cursor d) = Some t ->
  CurrentFile d = File t.
Proof.
  intros Hc Ht. unfold CurrentFile.
  pose proof (lookup_count _ _ _ Hc Ht).
  rewrite (token_at_lookup _ _ _ Hc Ht).
  destruct (Z.ltb_spec (cursor d) 0); [lia|].
  destruct (Z.leb_spec (count d) (cursor d)); [lia | reflexivity].
Qed.

Lemma CurrentLine_at (d : Dispenser) (t : Token) :
  (0 <= cursor d)%Z -> tokens d !! Z.to_nat (cursor d) = Some t ->
  CurrentLine d = Line t.
Proof.
  intros Hc Ht. unfold CurrentLine.
  pose proof (lookup_count _ _ _ Hc Ht).
  rewrite (token_at_lookup _ _ _ Hc Ht).
  destruct (Z.ltb_spec (cursor d) 0); [lia|].
  destruct (Z.leb_spec (count d) (cursor d)); [lia | reflexivity].
Qed.

Lemma Next_at (d : Dispenser) (t : Token) :
  (-1 <= cursor d)%Z -> tokens d !! Z.to_nat (cursor d + 1) = Some t ->
  Next d = (true, set_cursor (cursor d + 1) d).
Proof.
  intros Hc Ht. unfold Next.
  assert (cursor d + 1 < count d)%Z
    by (apply (lookup_count _ _ t); [lia | assumption]).
  destruct (Z.ltb_spec (cursor d) (count d - 1)); [reflexivity | lia].
Qed.

Lemma Next_last (d : Dispenser) :
  (count d - 1 <= cursor d)%Z -> Next d = (false, d).
Proof.
  intros Hc. unfold Next.
  destruct (Z.ltb_spec (cursor d) (count d - 1)); [lia | reflexivity].
Qed.

Lemma nextOnSameLine_at (d : Dispenser) (curr next : Token) :
  (0 <= cursor d)%Z ->
  tokens d !! Z.to_nat (cursor d) = Some curr ->
  tokens d !! Z.to_nat (cursor d + 1) = Some next ->
  isNextOnNewLine curr next = false ->
  nextOnSameLine d = (true, set_cursor (cursor d + 1) d).
Proof.
  intros Hc Hcurr Hnext Hline. unfold nextOnSameLine.
  assert (cursor d + 1 < count d)%Z
    by (apply (lookup_count _ _ next); [lia | assumption]).
  rewrite (token_at_lookup _ _ _ Hc Hcurr).
  rewrite (token_at_lookup _ (cursor d + 1) next), Hline;
    [|lia|assumption].
  destruct (Z.ltb_spec (cursor d) 0); [lia|].
  destruct (Z.leb_spec (count d - 1) (cursor d)); [lia | reflexivity].
Qed.

Lemma nextOnSameLine_line_ends (d : Dispenser) (curr : Token) :
  (0 <= cursor d)%Z ->
  tokens d !! Z.to_nat (cursor d) = Some curr ->
  line_ends d curr ->
  nextOnSameLine d = (false, d).
Proof.
  intros Hc Hcurr Hends. unfold nextOnSameLine, line_ends in *.
  rewrite (token_at_lookup _ _ _ Hc Hcurr).
  destruct (Z.ltb_spec (cursor d) 0); [lia|].
  destruct (Z.leb_spec (count d - 1) (cursor d)); [reflexivity|].
  unfold token_at. destruct (Z.ltb_spec (cursor d + 1) 0); [lia|].
  destruct (tokens d !! Z.to_nat (cursor d + 1)) as [next|];
    [|reflexivity].
  now rewrite Hends.
Qed.

Lemma NextArg_at (d : Dispenser) (curr next : Token) :
  (0 <= cursor d)%Z ->
  tokens d !! Z.to_nat (cursor d) = Some curr ->
  tokens d !! Z.to_nat (cursor d + 1) = Some next ->
  isNextOnNewLine curr next = false ->
  Text next <> "{" ->
  NextArg d = (true, set_cursor (cursor d + 1) d).
Proof.
  intros Hc Hcurr Hnext Hline Hbrace. unfold NextArg.
  rewrite (nextOnSameLine_at _ _ _ Hc Hcurr Hnext Hline). cbn [negb].
  rewrite (Val_at _ next); cbn [set_cursor cursor tokens];
    [|lia|assumption].
  now destruct (String.eqb_spec (Text next) "{").
Qed.

Lemma NextArg_line_ends (d : Dispenser) (curr : Token) :
  (0 <= cursor d)%Z ->
  tokens d !! Z.to_nat (cursor d) = Some curr ->
  line_ends d curr ->
  NextArg d = (false, d).
Proof.
  intros Hc Hcurr Hends. unfold NextArg.
  now rewrite (nextOnSameLine_line_ends _ _ Hc Hcurr Hends).
Qed.

Lemma NextBlock_inside (n : Z) (d : Dispenser) (t : Token) :
  (n < nesting d)%Z -> (-1 <= cursor d)%Z ->
  tokens d !! Z.to_nat (cursor d + 1) = Some t ->
  Text t <> "}" -> Text t <> "{" ->
  NextBlock n d = (true, set_cursor (cursor d + 1) d).
Proof.
  intros Hn Hc Ht Hclose Hopen. unfold NextBlock.
  destruct (Z.ltb_spec n (nesting d)); [|lia].
  rewrite (Next_at _ _ Hc Ht). cbn [negb].
  rewrite (Val_at _ t); cbn [set_cursor cursor tokens];
    [|lia|assumption].
  destruct (String.eqb_spec (Text t) "}"); [contradiction|].
  destruct (String.eqb_spec (Text t) "{"); [contradiction|].
  cbn [set_cursor nesting].
  destruct (Z.ltb_spec n (nesting d)); [reflexivity | lia].
Qed.

Lemma set_cursor_twice (a b : Z) (d : Dispenser) :
  set_cursor a (set_cursor b d) = set_cursor a d.
Proof. reflexivity. Qed.

Lemma NextBlock_closes (n : Z) (d : Dispenser) (t : Token) :
  (n < nesting d)%Z -> (-1 <= cursor d)%Z ->
  tokens d !! Z.to_nat (cursor d + 1) = Some t ->
  Text t = "}" -> line_ends (set_cursor (cursor d + 1) d) t ->
  NextBlock n d =
    ((n <? nesting d - 1)%Z,
     set_nesting (nesting d - 1) (set_cursor (cursor d + 1) d)).
Proof.
  intros Hn Hc Ht Hclose Hends. unfold NextBlock.
  destruct (Z.ltb_spec n (nesting d)); [|lia].
  rewrite (Next_at _ _ Hc Ht). cbn [negb].
  rewrite (Val_at _ t); cbn [set_cursor cursor tokens];
    [|lia|assumption].
  rewrite Hclose. cbn [String.eqb Ascii.eqb Bool.eqb].
  rewrite (nextOnSameLine_line_ends _ t); cbn [set_cursor cursor tokens];
    [reflexivity|lia|assumption|assumption].
Qed.

Lemma NextBlock_opens (n : Z) (d : Dispenser) (curr brace t : Token) :
  (nesting d <= n)%Z -> (0 <= cursor d)%Z ->
  tokens d !! Z.to_nat (cursor d) = Some curr ->
  tokens d !! Z.to_nat (cursor d + 1) = Some brace ->
  tokens d !! Z.to_nat (cursor d + 2) = Some t ->
  isNextOnNewLine curr brace = false -> Text brace = "{" ->
  NextBlock n d =
    if String.eqb (Text t) "}" then (false, set_cursor (cursor d + 2) d)
    else (true, set_nesting (nesting d + 1) (set_cursor (cursor d + 2) d)).
Proof.
  intros Hn Hc Hcurr Hbrace Ht Hline Hopen. unfold NextBlock.
  destruct (Z.ltb_spec n (nesting d)); [lia|].
  rewrite (nextOnSameLine_at _ _ _ Hc Hcurr Hbrace Hline). cbn [negb].
  rewrite (Val_at _ brace); cbn [set_cursor cursor tokens];
    [|lia|assumption].
  rewrite Hopen. cbn [String.eqb Ascii.eqb Bool.eqb negb].
  rewrite (Next_at _ t); cbn [set_cursor cursor tokens];
    [|lia|now replace (cursor d + 1 + 1)%Z with (cursor d + 2)%Z by lia].
  replace (cursor d + 1 + 1)%Z with (cursor d + 2)%Z by lia.
  rewrite (Val_at _ t); cbn [set_cursor cursor tokens];
    [reflexivity|lia|assumption].
Qed.

(** ** One turn of the inner loop *)

Lemma block_loop_closes (fuel : nat) (n : Z) (i : I18n) (d : Dispenser)
    (t : Token) :
  nesting d = (n + 1)%Z -> (-1 <= cursor d)%Z ->
  tokens d !! Z.to_nat (cursor d + 1) = Some t ->
  Text t = "}" -> line_ends (set_cursor (cursor d + 1) d) t ->
  block_loop (S fuel) n i d =
    Finished i (set_nesting n (set_cursor (cursor d + 1) d)).
Proof.
  intros Hn Hc Ht Hclose Hends. cbn [block_loop].
  rewrite (NextBlock_closes n d t); [|lia|assumption..].
  replace (nesting d - 1)%Z with n by lia.
  now rewrite Z.ltb_irrefl.
Qed.

Lemma block_loop_unrecognized (fuel : nat) (n : Z) (i : I18n)
    (d : Dispenser) (t : Token) :
  (n < nesting d)%Z -> (-1 <= cursor d)%Z ->
  tokens d !! Z.to_nat (cursor d + 1) = Some t ->
  Text t <> "}" -> Text t <> "{" -> Text t <> "dict_file" ->
  block_loop (S fuel) n i d =
    Returned (UnrecognizedProperty (Text t) (File t) (Line t)) i
      (set_cursor (cursor d + 1) d).
Proof.
  intros Hn Hc Ht Hclose Hopen Hname. cbn [block_loop].
  rewrite (NextBlock_inside n d t) by assumption. cbn [negb].
  rewrite (Val_at _ t), (CurrentFile_at _ t), (CurrentLine_at _ t);
    cbn [set_cursor cursor tokens]; try lia; try assumption.
  now destruct (String.eqb_spec (Text t) "dict_file").
Qed.

Lemma block_loop_missing (fuel : nat) (n : Z) (i : I18n)
    (d : Dispenser) (df : Token) :
  (n < nesting d)%Z -> (-1 <= cursor d)%Z ->
  tokens d !! Z.to_nat (cursor d + 1) = Some df ->
  Text df = "dict_file" -> line_ends (set_cursor (cursor d + 1) d) df ->
  block_loop (S fuel) n i d =
    Returned (WrongArgumentCount "dict_file" (File df) (Line df)) i
      (set_cursor (cursor d + 1) d).
Proof.
  intros Hn Hc Hdf Hname Hends. cbn [block_loop].
  rewrite (NextBlock_inside n d df); try assumption;
    try (rewrite Hname; discriminate).
  cbn [negb].
  assert (Hat : tokens (set_cursor (cursor d + 1) d)
                  !! Z.to_nat (cursor (set_cursor (cursor d + 1) d))
                = Some df) by assumption.
  assert (Hpos : (0 <= cursor (set_cursor (cursor d + 1) d))%Z)
    by (cbn [set_cursor cursor]; lia).
  rewrite (Val_at _ df Hpos Hat), Hname.
  cbn [String.eqb Ascii.eqb Bool.eqb].
  rewrite (NextArg_line_ends _ df Hpos Hat Hends). cbn [negb].
  unfold ArgErr.
  rewrite (Val_at _ df Hpos Hat), (CurrentFile_at _ df Hpos Hat),
    (CurrentLine_at _ df Hpos Hat), Hname.
  reflexivity.
Qed.

Lemma block_loop_directive (fuel : nat) (n : Z) (i : I18n)
    (d : Dispenser) (df p : Token) :
  (n < nesting d)%Z -> (-1 <= cursor d)%Z ->
  tokens d !! Z.to_nat (cursor d + 1) = Some df ->
  tokens d !! Z.to_nat (cursor d + 2) = Some p ->
  Text df = "dict_file" -> isNextOnNewLine df p = false ->
  Text p <> "{" -> line_ends (set_cursor (cursor d + 2) d) p ->
  block_loop (S fuel) n i d =
    block_loop fuel n (with_DictFile (Text p) i)
      (set_cursor (cursor d + 2) d).
Proof.
  intros Hn Hc Hdf Hp Hname Hline Hbrace Hends. cbn [block_loop].
  rewrite (NextBlock_inside n d df); try assumption;
    try (rewrite Hname; discriminate).
  cbn [negb].
  assert (Hat : tokens (set_cursor (cursor d + 1) d)
                  !! Z.to_nat (cursor (set_cursor (cursor d + 1) d))
                = Some df) by assumption.
  assert (Hpos : (0 <= cursor (set_cursor (cursor d + 1) d))%Z)
    by (cbn [set_cursor cursor]; lia).
  rewrite (Val_at _ df Hpos Hat), Hname.
  cbn [String.eqb Ascii.eqb Bool.eqb].
  rewrite (NextArg_at _ df p Hpos Hat); try assumption;
    [|cbn [set_cursor cursor tokens];
      now replace (cursor d + 1 + 1)%Z with (cursor d + 2)%Z by lia].
  cbn [negb set_cursor cursor tokens nesting].
  replace (cursor d + 1 + 1)%Z with (cursor d + 2)%Z by lia.
  rewrite !set_cursor_twice.
  assert (Hat2 : tokens (set_cursor (cursor d + 2) d)
                   !! Z.to_nat (cursor (set_cursor (cursor d + 2) d))
                 = Some p) by assumption.
  assert (Hpos2 : (0 <= cursor (set_cursor (cursor d + 2) d))%Z)
    by (cbn [set_cursor cursor]; lia).
  rewrite (Val_at _ p Hpos2 Hat2).
  now rewrite (NextArg_line_ends _ p Hpos2 Hat2 Hends).
Qed.

Lemma block_loop_extra (fuel : nat) (n : Z) (i : I18n)
    (d : Dispenser) (df p e : Token) :
  (n < nesting d)%Z -> (-1 <= cursor d)%Z ->
  tokens d !! Z.to_nat (cursor d + 1) = Some df ->
  tokens d !! Z.to_nat (cursor d + 2) = Some p ->
  tokens d !! Z.to_nat (cursor d + 3) = Some e ->
  Text df = "dict_file" -> isNextOnNewLine df p = false ->
  Text p <> "{" -> isNextOnNewLine p e = false -> Text e <> "{" ->
  block_loop (S fuel) n i d =
    Returned (WrongArgumentCount (Text e) (File e) (Line e))
      (with_DictFile (Text p) i) (set_cursor (cursor d + 3) d).
Proof.
  intros Hn Hc Hdf Hp He Hname Hline Hbrace Hline2 Hbrace2.
  cbn [block_loop].
  rewrite (NextBlock_inside n d df); try assumption;
    try (rewrite Hname; discriminate).
  cbn [negb].
  assert (Hat : tokens (set_cursor (cursor d + 1) d)
                  !! Z.to_nat (cursor (set_cursor (cursor d + 1) d))
                = Some df) by assumption.
  assert (Hpos : (0 <= cursor (set_cursor (cursor d + 1) d))%Z)
    by (cbn [set_cursor cursor]; lia).
  rewrite (Val_at _ df Hpos Hat), Hname.
  cbn [String.eqb Ascii.eqb Bool.eqb].
  rewrite (NextArg_at _ df p Hpos Hat); try assumption;
    [|cbn [set_cursor cursor tokens];
      now replace (cursor d + 1 + 1)%Z with (cursor d + 2)%Z by lia].
  cbn [negb set_cursor cursor tokens nesting].
  replace (cursor d + 1 + 1)%Z with (cursor d + 2)%Z by lia.
  rewrite !set_cursor_twice.
  assert (Hat2 : tokens (set_cursor (cursor d + 2) d)
                   !! Z.to_nat (cursor (set_cursor (cursor d + 2) d))
                 = Some p) by assumption.
  assert (Hpos2 : (0 <= cursor (set_cursor (cursor d + 2) d))%Z)
    by (cbn [set_cursor cursor]; lia).
  rewrite (Val_at _ p Hpos2 Hat2).
  rewrite (NextArg_at _ p e Hpos2 Hat2); try assumption;
    [|cbn [set_cursor cursor tokens];
      now replace (cursor d + 2 + 1)%Z with (cursor d + 3)%Z by lia].
  cbn [set_cursor cursor tokens nesting].
  replace (cursor d + 2 + 1)%Z with (cursor d + 3)%Z by lia.
  rewrite !set_cursor_twice.
  assert (Hat3 : tokens (set_cursor (cursor d + 3) d)
                   !! Z.to_nat (cursor (set_cursor (cursor d + 3) d))
                 = Some e) by assumption.
  assert (Hpos3 : (0 <= cursor (set_cursor (cursor d + 3) d))%Z)
    by (cbn [set_cursor cursor]; lia).
  unfold ArgErr.
  rewrite (Val_at _ e Hpos3 Hat3), (CurrentFile_at _ e Hpos3 Hat3),
    (CurrentLine_at _ e Hpos3 Hat3).
  now destruct (String.eqb_spec (Text e) "{").
Qed.

(** ** Fuel *)

Lemma block_loop_more (fuel k : nat) (n : Z) (i : I18n) (d : Dispenser) :
  block_loop fuel n i d <> OutOfFuel ->
  block_loop (fuel + k) n i d = block_loop fuel n i d.
Proof.
  revert i d. induction fuel as [|fuel IH]; intros i d; [now cbn|].
  cbn [block_loop Nat.add].
  destruct (NextBlock n d) as [more d1].
  destruct (negb more); [reflexivity|].
  destruct (String.eqb (Val d1) "dict_file"); [|reflexivity].
  destruct (NextArg d1) as [found d2].
  destruct (negb found); [reflexivity|].
  destruct (NextArg d2) as [extra d3].
  destruct extra; [reflexivity|]. apply IH.
Qed.

Lemma block_loop_fuel (fuel : nat) (n : Z) (i : I18n) (d : Dispenser)
    (ended : LoopEnd) :
  block_loop fuel n i d = ended -> ended <> OutOfFuel ->
  block_loop (S (tokens_left d)) n i d = ended.
Proof.
  intros Hrun Hended.
  assert (Hfull : block_loop (S (tokens_left d)) n i d <> OutOfFuel).
  { pose proof (block_loop_ends (S (tokens_left d)) n i d
                  (Nat.lt_succ_diag_r _)) as H.
    intros Hout. now rewrite Hout in H. }
  rewrite <- (block_loop_more _ fuel _ _ _ Hfull).
  rewrite Nat.add_comm, block_loop_more; congruence.
Qed.

Lemma next_loop_more (fuel k : nat) (i : I18n) (d : Dispenser) :
  next_loop fuel i d <> OutOfFuel ->
  next_loop (fuel + k) i d = next_loop fuel i d.
Proof.
  revert i d. induction fuel as [|fuel IH]; intros i d; [now cbn|].
  cbn [next_loop Nat.add].
  destruct (Next d) as [more d1].
  destruct (negb more); [reflexivity|].
  destruct (block_loop (S (tokens_left d1)) (Nesting d1) i d1);
    [apply IH | reflexivity | reflexivity].
Qed.

Lemma UnmarshalCaddyfile_fuel (fuel : nat) (i : I18n) (d : Dispenser)
    (ended : LoopEnd) :
  next_loop fuel i d = ended -> ended <> OutOfFuel ->
  UnmarshalCaddyfile d i = ended.
Proof.
  intros Hrun Hended. unfold UnmarshalCaddyfile.
  assert (Hfull : next_loop (S (tokens_left d)) i d <> OutOfFuel).
  { pose proof (next_loop_ends (S (tokens_left d)) i d
                  (Nat.lt_succ_diag_r _)) as H.
    intros Hout. now rewrite Hout in H. }
  rewrite <- (next_loop_more _ fuel _ _ Hfull).
  rewrite Nat.add_comm, next_loop_more; congruence.
Qed.

(** One block, then the end of the tokens. *)
Lemma UnmarshalCaddyfile_returns (fuel : nat) (i i' : I18n)
    (d d' : Dispenser) (t : Token) (err : ConfigError) :
  (-1 <= cursor d)%Z -> tokens d !! Z.to_nat (cursor d + 1) = Some t ->
  block_loop fuel (nesting d) i (set_cursor (cursor d + 1) d) =
    Returned err i' d' ->
  UnmarshalCaddyfile d i = Returned err i' d'.
Proof.
  intros Hc Ht Hblock.
  apply (UnmarshalCaddyfile_fuel 1); [|discriminate].
  cbn [next_loop]. rewrite (Next_at _ _ Hc Ht). cbn [negb].
  change (Nesting (set_cursor (cursor d + 1) d)) with (nesting d).
  now rewrite (block_loop_fuel _ _ _ _ _ Hblock) by discriminate.
Qed.

Lemma UnmarshalCaddyfile_finishes (fuel : nat) (i i' : I18n)
    (d d' : Dispenser) (t : Token) :
  (-1 <= cursor d)%Z -> tokens d !! Z.to_nat (cursor d + 1) = Some t ->
  block_loop fuel (nesting d) i (set_cursor (cursor d + 1) d) =
    Finished i' d' ->
  (count d' - 1 <= cursor d')%Z ->
  UnmarshalCaddyfile d i = Finished i' d'.
Proof.
  intros Hc Ht Hblock Hlast.
  apply (UnmarshalCaddyfile_fuel 2); [|discriminate].
  cbn [next_loop]. rewrite (Next_at _ _ Hc Ht). cbn [negb].
  change (Nesting (set_cursor (cursor d + 1) d)) with (nesting d).
  rewrite (block_loop_fuel _ _ _ _ _ Hblock) by discriminate.
  now rewrite (Next_last _ Hlast).
Qed.

(** ** Lines *)

Lemma isNextOnNewLine_later (t1 t2 : Token) :
  (Line t1 + NumLineBreaks t1 < Line t2)%Z -> isNextOnNewLine t1 t2 = true.
Proof.
  intros Hlater. unfold isNextOnNewLine.
  destruct (negb _); [reflexivity|].
  destruct (negb _); [reflexivity|].
  destruct (existsb _ _); [reflexivity|].
  now apply Z.ltb_lt.
Qed.

Lemma count_newlines_nonneg (text : string) :
  (0 <= count_newlines text)%Z.
Proof.
  induction text as [|c text IH]; cbn [count_newlines]; [lia|].
  destruct (Ascii.eqb c "010"); lia.
Qed.

Lemma NumLineBreaks_token_on (line : Z) (text : string) :
  NumLineBreaks (token_on line text) = count_newlines text.
Proof. reflexivity. Qed.

Lemma token_on_same_line (line : Z) (a b : string) :
  isNextOnNewLine (token_on line a) (token_on line b) = false.
Proof.
  unfold isNextOnNewLine. rewrite NumLineBreaks_token_on.
  cbn [token_on File imports Line length combine existsb].
  cbn [String.eqb Ascii.eqb Bool.eqb negb Nat.eqb].
  pose proof (count_newlines_nonneg a).
  apply Z.ltb_ge. lia.
Qed.

Lemma lookup_ahead (d : Dispenser) (l : list Token) (k : Z) :
  (-1 <= cursor d)%Z -> (0 <= k)%Z ->
  drop (Z.to_nat (cursor d + 1)) (tokens d) = l ->
  tokens d !! Z.to_nat (cursor d + 1 + k) = l !! Z.to_nat k.
Proof.
  intros Hc Hk <-. rewrite lookup_drop. f_equal. lia.
Qed.

Lemma drop_ahead (d : Dispenser) (t u : Token) (l : list Token) :
  (-1 <= cursor d)%Z ->
  drop (Z.to_nat (cursor d + 1)) (tokens d) = t :: u :: l ->
  drop (Z.to_nat (cursor d + 2 + 1)) (tokens d) = l.
Proof.
  intros Hc Hdrop.
  replace (Z.to_nat (cursor d + 2 + 1)) with (Z.to_nat (cursor d + 1) + 2)
    by lia.
  now rewrite <- drop_drop, Hdrop.
Qed.

Lemma last_cons {A : Type} (a dflt : A) (l : list A) :
  List.last (a :: l) dflt = List.last l a.
Proof.
  revert a dflt. induction l as [|b l IH]; intros a dflt; [reflexivity|].
  change (List.last (a :: b :: l) dflt) with (List.last (b :: l) dflt).
  now rewrite !IH.
Qed.

Lemma with_DictFile_same (i : I18n) : with_DictFile (DictFile i) i = i.
Proof. now destruct i. Qed.

Lemma set_cursor_same (c : Z) (d : Dispenser) :
  c = cursor d -> set_cursor c d = d.
Proof. intros ->. now destruct d. Qed.

(** ** The directives of a block *)

Lemma block_loop_directives (paths : list string) :
  forall (d : Dispenser) (line : Z) (tail : list Token) (i : I18n)
         (fuel : nat) (n : Z),
  (n < nesting d)%Z -> (-1 <= cursor d)%Z ->
  Forall one_line_path paths ->
  drop (Z.to_nat (cursor d + 1)) (tokens d) =
    (directives line paths ++ tail)%list ->
  match tail with
  | [] => True
  | next :: _ => (line + Z.of_nat (length paths) - 1 < Line next)%Z
  end ->
  block_loop (length paths + fuel) n i d =
    block_loop fuel n (with_DictFile (List.last paths (DictFile i)) i)
      (set_cursor (cursor d + 2 * Z.of_nat (length paths)) d).
Proof.
  induction paths as [|path rest IH];
    intros d line tail i fuel n Hn Hc Hpaths Hdrop Htail.
  { cbn [length Nat.add List.last]. rewrite with_DictFile_same.
    rewrite set_cursor_same; [reflexivity | cbn; lia]. }
  apply Forall_cons in Hpaths as [[Hbrace Hlines] Hrest].
  cbn [directives on_line map app] in Hdrop.
  pose proof (lookup_ahead d _ 0 Hc ltac:(lia) Hdrop) as Hdf.
  pose proof (lookup_ahead d _ 1 Hc ltac:(lia) Hdrop) as Hp.
  pose proof (drop_ahead d _ _ _ Hc Hdrop) as Hdrop'.
  rewrite Z.add_0_r in Hdf.
  replace (cursor d + 1 + 1)%Z with (cursor d + 2)%Z in Hp by lia.
  cbn [Z.to_nat Pos.to_nat Pos.iter_op Nat.add lookup list_lookup]
    in Hdf, Hp.
  cbn [length Nat.add].
  rewrite (block_loop_directive _ n i d _ _ ltac:(lia) Hc Hdf Hp);
    try assumption; try reflexivity.
  - rewrite (IH (set_cursor (cursor d + 2) d) (line + 1)%Z tail);
      cbn [set_cursor cursor tokens nesting]; try assumption; try lia.
    + rewrite last_cons. cbn [with_DictFile DictFile token_on Text].
      unfold set_cursor. cbn [tokens cursor nesting]. do 2 f_equal.
      cbn [length]. lia.
    + destruct tail as [|next tail']; [exact I|].
      cbn [length] in Htail. lia.
  - apply token_on_same_line.
  - assert (Hnext : tokens d !! Z.to_nat (cursor d + 2 + 1) =
                      (directives (line + 1) rest ++ tail)%list !! 0%nat).
    { rewrite <- Hdrop', lookup_drop. f_equal. lia. }
    unfold line_ends. cbn [set_cursor cursor tokens]. rewrite Hnext.
    destruct rest as [|path' rest'].
    + cbn [directives app]. destruct tail as [|next tail']; [exact I|].
      cbn [lookup list_lookup]. apply isNextOnNewLine_later.
      rewrite NumLineBreaks_token_on, Hlines.
      cbn [token_on Line length] in *. lia.
    + cbn [directives on_line map app lookup list_lookup].
      apply isNextOnNewLine_later.
      rewrite NumLineBreaks_token_on, Hlines. cbn [token_on Line]. lia.
Qed.

Lemma block_loop_enters (fuel : nat) (n : Z) (i : I18n) (d : Dispenser)
    (curr brace t : Token) :
  nesting d = n -> (0 <= cursor d)%Z ->
  tokens d !! Z.to_nat (cursor d) = Some curr ->
  tokens d !! Z.to_nat (cursor d + 1) = Some brace ->
  tokens d !! Z.to_nat (cursor d + 2) = Some t ->
  isNextOnNewLine curr brace = false -> Text brace = "{" ->
  Text t <> "{" ->
  (Text t = "}" -> line_ends (set_cursor (cursor d + 2) d) t) ->
  block_loop (S fuel) n i d =
    block_loop (S fuel) n i
      (set_nesting (n + 1) (set_cursor (cursor d + 1) d)).
Proof.
  intros Hn Hc Hcurr Hbrace Ht Hline Hopen Hnot Hends.
  assert (Hsame : NextBlock n d =
            NextBlock n (set_nesting (n + 1) (set_cursor (cursor d + 1) d))).
  { rewrite (NextBlock_opens n d curr brace t); try assumption; [|lia].
    set (d' := set_nesting (n + 1) (set_cursor (cursor d + 1) d)).
    assert (Ht' : tokens d' !! Z.to_nat (cursor d' + 1) = Some t).
    { cbn [d' set_nesting set_cursor tokens cursor].
      now replace (cursor d + 1 + 1)%Z with (cursor d + 2)%Z by lia. }
    destruct (String.eqb_spec (Text t) "}") as [Hclose|Hclose].
    - rewrite (NextBlock_closes n d' t); try assumption;
        cbn [d' set_nesting set_cursor tokens cursor nesting]; try lia.
      + replace (n + 1 - 1)%Z with n by lia. rewrite Z.ltb_irrefl.
        subst d'. unfold set_nesting, set_cursor.
        cbn [tokens cursor nesting]. do 2 f_equal; lia.
      + specialize (Hends Hclose). unfold line_ends in *.
        cbn [set_cursor tokens cursor] in *.
        now replace (cursor d + 1 + 1 + 1)%Z with (cursor d + 2 + 1)%Z
          by lia.
    - rewrite (NextBlock_inside n d' t); try assumption;
        cbn [d' set_nesting set_cursor tokens cursor nesting]; try lia.
      subst d'. unfold set_nesting, set_cursor.
      cbn [tokens cursor nesting]. do 2 f_equal; lia. }
  cbn [block_loop]. now rewrite Hsame.
Qed.

(** ** A block of directives *)

Lemma length_directives (line : Z) (paths : list string) :
  length (directives line paths) = 2 * length paths.
Proof.
  revert line. induction paths as [|path rest IH]; intros line;
    [reflexivity|].
  cbn [directives on_line map app length]. rewrite IH. lia.
Qed.

Lemma length_opened (name : string) (paths : list string) :
  length (opened name paths) = 2 + 2 * length paths.
Proof.
  unfold opened. cbn [on_line map app length].
  now rewrite length_directives.
Qed.

Lemma drop_opened (name : string) (paths : list string)
    (tail : list Token) :
  drop (Z.to_nat (1 + 2 * Z.of_nat (length paths) + 1))
    (opened name paths ++ tail) = tail.
Proof.
  apply drop_app_length'. rewrite length_opened. lia.
Qed.

(** The loop from the name of the block to the end of its directives,
    where a token [t] follows that is not an opening brace. *)
Lemma block_loop_opened (name : string) (paths : list string)
    (t : Token) (tail : list Token) (i : I18n) (fuel : nat) :
  Forall one_line_path paths ->
  (1 + Z.of_nat (length paths) < Line t)%Z ->
  Text t <> "{" -> (Text t = "}" -> tail = []) ->
  block_loop (S (length paths + fuel)) 0 i
    {| tokens := (opened name paths ++ t :: tail)%list; cursor := 0;
       nesting := 0 |} =
  block_loop (S fuel) 0
    (with_DictFile (List.last paths (DictFile i)) i)
    {| tokens := (opened name paths ++ t :: tail)%list;
       cursor := 1 + 2 * Z.of_nat (length paths); nesting := 1 |}.
Proof.
  intros Hpaths Hlater Hnot Hclose.
  set (ts := (opened name paths ++ t :: tail)%list).
  set (d := {| tokens := ts; cursor := 0; nesting := 0 |}).
  assert (Hts : ts = token_on 1 name :: token_on 1 "{" ::
                     (directives 2 paths ++ t :: tail)%list)
    by reflexivity.
  assert (Hthird : exists t', ts !! 2%nat = Some t' /\ Text t' <> "{" /\
                     (Text t' = "}" -> ts !! 3%nat = None)).
  { rewrite Hts. destruct paths as [|path rest].
    - exists t. cbn [directives app lookup list_lookup].
      split; [reflexivity|]. split; [assumption|].
      intros Hbrace. now rewrite (Hclose Hbrace).
    - eexists. cbn [directives on_line map app lookup list_lookup].
      split; [reflexivity|]. split; discriminate. }
  destruct Hthird as (t' & Ht' & Hnot' & Hclose').
  rewrite (block_loop_enters _ 0 i d (token_on 1 name) (token_on 1 "{") t');
    try assumption; try reflexivity; try (cbn; lia).
  2:{ apply token_on_same_line. }
  2:{ intros Hbrace. unfold line_ends. cbn [d set_cursor tokens cursor].
      change (Z.to_nat (0 + 2 + 1)) with 3%nat.
      now rewrite (Hclose' Hbrace). }
  rewrite <- Nat.add_succ_r.
  rewrite (block_loop_directives paths _ 2 (t :: tail));
    cbn [d set_nesting set_cursor tokens cursor nesting]; try assumption;
    try lia.
  - unfold set_cursor. cbn [tokens cursor nesting]. now do 2 f_equal.
  - rewrite Hts. reflexivity.
Qed.

Lemma lookup_after_opened (name : string) (paths : list string)
    (tail : list Token) (k : Z) :
  (0 <= k)%Z ->
  (opened name paths ++ tail)%list
    !! Z.to_nat (1 + 2 * Z.of_nat (length paths) + 1 + k) =
  tail !! Z.to_nat k.
Proof.
  intros Hk. rewrite <- (drop_opened name paths tail) at 2.
  rewrite lookup_drop. f_equal. lia.
Qed.

Lemma first_of_opened (name : string) (paths : list string)
    (tail : list Token) :
  tokens (NewDispenser (opened name paths ++ tail))
    !! Z.to_nat (cursor (NewDispenser (opened name paths ++ tail)) + 1) =
  Some (token_on 1 name).
Proof. reflexivity. Qed.

(** ** The function on a block *)

(** X12.  [UnmarshalCaddyfile] returns for every dispenser, whatever its
    tokens: both loops end.  The instance it leaves differs from the one
    it was given in [DictFile] at most, with or without an error, and the
    dispenser has its tokens unchanged and its cursor not moved back. *)
Theorem UnmarshalCaddyfile_returns_and_keeps (d : Dispenser) (i : I18n) :
  match UnmarshalCaddyfile d i with
  | Finished i' d' | Returned _ i' d' => same_but_path i i' /\ advanced d d'
  | OutOfFuel => False
  end.
Proof.
  unfold UnmarshalCaddyfile.
  pose proof (next_loop_ends (S (tokens_left d)) i d
                (Nat.lt_succ_diag_r _)) as Hends.
  destruct (next_loop (S (tokens_left d)) i d) as [i' d'|err i' d'|];
    [| |contradiction].
  - destruct Hends as [Hadv Hframe]. now split.
  - destruct Hends as (Hadv & Hframe & _). now split.
Qed.

(** X13.  The errors of [UnmarshalCaddyfile]: it never reports an
    unexpected opening brace, a wrong argument count is never reported
    after the token ["{"], and the property it reports as unrecognized is
    never [dict_file]. *)
Theorem UnmarshalCaddyfile_errors (d d' : Dispenser) (i i' : I18n)
    (err : ConfigError) :
  UnmarshalCaddyfile d i = Returned err i' d' ->
  match err with
  | UnexpectedBrace _ _ => False
  | WrongArgumentCount after _ _ => after <> "{"
  | UnrecognizedProperty property _ _ => property <> "dict_file"
  end.
Proof.
  unfold UnmarshalCaddyfile. intros Hrun.
  pose proof (next_loop_ends (S (tokens_left d)) i d
                (Nat.lt_succ_diag_r _)) as Hends.
  rewrite Hrun in Hends. destruct Hends as (_ & _ & Herr). exact Herr.
Qed.

(** X14.  On a block [name { dict_file p1 ... dict_file pn }], one
    directive per line, every path one argument on one line,
    [UnmarshalCaddyfile] returns nil with all tokens consumed, and
    [DictFile] is the path of the last directive; with no directive it
    keeps the value it had. *)
Theorem UnmarshalCaddyfile_last_directive_wins (name : string)
    (paths : list string) (i : I18n) :
  Forall one_line_path paths ->
  UnmarshalCaddyfile (NewDispenser (block name paths)) i =
    Finished (with_DictFile (List.last paths (DictFile i)) i)
      (at_end (block name paths)).
Proof.
  intros Hpaths. unfold block. cbn [on_line map].
  set (close := token_on (2 + Z.of_nat (length paths)) "}").
  apply (UnmarshalCaddyfile_finishes (S (length paths + 0)) _ _ _ _
           (token_on 1 name)); [cbn; lia | apply first_of_opened | |].
  - change (set_cursor _ _) with
      {| tokens := (opened name paths ++ [close])%list; cursor := 0;
         nesting := 0 |}.
    cbn [NewDispenser nesting].
    rewrite (block_loop_opened name paths close []); try assumption;
      [|cbn; lia|discriminate|reflexivity].
    rewrite (block_loop_closes _ 0 _ _ close);
      cbn [tokens cursor nesting]; try reflexivity; try lia.
    + unfold at_end, set_nesting, set_cursor. cbn [tokens cursor nesting].
      do 2 f_equal. rewrite length_app, length_opened. cbn [length]. lia.
    + rewrite <- (Z.add_0_r (_ + 1)).
      now rewrite lookup_after_opened.
    + unfold line_ends. cbn [set_cursor tokens cursor].
      now rewrite lookup_after_opened.
  - unfold at_end, count. cbn [tokens cursor]. lia.
Qed.

(** X15.  Where the directives of a block are followed, on a later line,
    by a token that is neither [dict_file] nor a brace,
    [UnmarshalCaddyfile] returns the error that names this token as an
    unrecognized property, with the token's file and line; [DictFile] is
    then the path of the last directive before it. *)
Theorem UnmarshalCaddyfile_unrecognized_property (name : string)
    (paths : list string) (t : Token) (tail : list Token) (i : I18n) :
  Forall one_line_path paths ->
  (1 + Z.of_nat (length paths) < Line t)%Z ->
  Text t <> "dict_file" -> Text t <> "{" -> Text t <> "}" ->
  UnmarshalCaddyfile (NewDispenser (opened name paths ++ t :: tail)) i =
    Returned (UnrecognizedProperty (Text t) (File t) (Line t))
      (with_DictFile (List.last paths (DictFile i)) i)
      {| tokens := (opened name paths ++ t :: tail)%list;
         cursor := 2 + 2 * Z.of_nat (length paths); nesting := 1 |}.
Proof.
  intros Hpaths Hlater Hname Hopen Hclose.
  apply (UnmarshalCaddyfile_returns (S (length paths + 0)) _ _ _ _
           (token_on 1 name)); [cbn; lia | apply first_of_opened |].
  change (set_cursor _ _) with
    {| tokens := (opened name paths ++ t :: tail)%list; cursor := 0;
       nesting := 0 |}.
  cbn [NewDispenser nesting].
  rewrite (block_loop_opened name paths t tail); try assumption;
    [|contradiction].
  rewrite (block_loop_unrecognized _ 0 _ _ t);
    cbn [tokens cursor nesting]; try assumption; try lia.
  - unfold set_cursor. cbn [tokens cursor nesting]. do 2 f_equal. lia.
  - rewrite <- (Z.add_0_r (_ + 1)). now rewrite lookup_after_opened.
Qed.

(** X16.  Where the directives of a block are followed by a line that is
    [dict_file] alone, [UnmarshalCaddyfile] returns the error of a wrong
    argument count after [dict_file], at that line; [DictFile] is the
    path of the last directive before it. *)
Theorem UnmarshalCaddyfile_missing_path (name : string)
    (paths : list string) (line : Z) (tail : list Token) (i : I18n) :
  Forall one_line_path paths ->
  (1 + Z.of_nat (length paths) < line)%Z -> starts_after line tail ->
  UnmarshalCaddyfile
    (NewDispenser (opened name paths ++ on_line line ["dict_file"] ++ tail))
    i =
    Returned (WrongArgumentCount "dict_file" "Testfile" line)
      (with_DictFile (List.last paths (DictFile i)) i)
      {| tokens :=
           (opened name paths ++ on_line line ["dict_file"] ++ tail)%list;
         cursor := 2 + 2 * Z.of_nat (length paths); nesting := 1 |}.
Proof.
  intros Hpaths Hlater Htail. cbn [on_line map app].
  set (df := token_on line "dict_file").
  apply (UnmarshalCaddyfile_returns (S (length paths + 0)) _ _ _ _
           (token_on 1 name)); [cbn; lia | apply first_of_opened |].
  change (set_cursor _ _) with
    {| tokens := (opened name paths ++ df :: tail)%list; cursor := 0;
       nesting := 0 |}.
  cbn [NewDispenser nesting].
  rewrite (block_loop_opened name paths df tail); try assumption;
    [|discriminate..].
  rewrite (block_loop_missing _ 0 _ _ df);
    cbn [tokens cursor nesting]; try reflexivity; try lia.
  - unfold set_cursor. cbn [tokens cursor nesting]. do 2 f_equal. lia.
  - rewrite <- (Z.add_0_r (_ + 1)). now rewrite lookup_after_opened.
  - unfold line_ends. cbn [set_cursor tokens cursor].
    rewrite lookup_after_opened by lia. cbn [Z.to_nat Pos.to_nat
      Pos.iter_op Nat.add lookup list_lookup].
    destruct tail as [|next tail']; [exact I|].
    cbn [lookup list_lookup]. apply isNextOnNewLine_later.
    unfold df. rewrite NumLineBreaks_token_on.
    change (count_newlines "dict_file") with 0%Z.
    cbn [starts_after token_on Line] in *. lia.
Qed.

(** X17.  Where the directives of a block are followed by a line
    [dict_file path extra], [UnmarshalCaddyfile] returns the error of a
    wrong argument count after [extra], at that line, and [DictFile] has
    been set to [path] all the same: the assignment precedes the
    check. *)
Theorem UnmarshalCaddyfile_extra_argument (name : string)
    (paths : list string) (line : Z) (path extra : string)
    (tail : list Token) (i : I18n) :
  Forall one_line_path paths ->
  (1 + Z.of_nat (length paths) < line)%Z ->
  path <> "{" -> extra <> "{" ->
  UnmarshalCaddyfile
    (NewDispenser
       (opened name paths ++
        on_line line ["dict_file"; path; extra] ++ tail))
    i =
    Returned (WrongArgumentCount extra "Testfile" line)
      (with_DictFile path i)
      {| tokens :=
           (opened name paths ++
            on_line line ["dict_file"; path; extra] ++ tail)%list;
         cursor := 4 + 2 * Z.of_nat (length paths); nesting := 1 |}.
Proof.
  intros Hpaths Hlater Hpath Hextra. cbn [on_line map app].
  set (df := token_on line "dict_file").
  set (p := token_on line path). set (e := token_on line extra).
  apply (UnmarshalCaddyfile_returns (S (length paths + 0)) _ _ _ _
           (token_on 1 name)); [cbn; lia | apply first_of_opened |].
  change (set_cursor _ _) with
    {| tokens := (opened name paths ++ df :: p :: e :: tail)%list;
       cursor := 0; nesting := 0 |}.
  cbn [NewDispenser nesting].
  rewrite (block_loop_opened name paths df (p :: e :: tail));
    try assumption; [|discriminate..].
  rewrite (block_loop_extra _ 0 _ _ df p e);
    cbn [tokens cursor nesting]; try assumption; try reflexivity;
    try lia; try apply token_on_same_line.
  - unfold set_cursor. cbn [tokens cursor nesting]. do 2 f_equal. lia.
  - rewrite <- (Z.add_0_r (_ + 1)). now rewrite lookup_after_opened.
  - replace (1 + 2 * Z.of_nat (length paths) + 2)%Z
      with (1 + 2 * Z.of_nat (length paths) + 1 + 1)%Z by lia.
    now rewrite lookup_after_opened.
  - replace (1 + 2 * Z.of_nat (length paths) + 3)%Z
      with (1 + 2 * Z.of_nat (length paths) + 1 + 2)%Z by lia.
    now rewrite lookup_after_opened.
Qed.

End Dispenser.

(** * The further properties at concrete inputs *)

Lemma fallback_key_not_interpolated_witness :
  snd (i18nTranslate Arch64 demo "Total: {0}" "de" [VInt 3]) =
    Ok ("Total: {0}", None).
Proof.
  apply (fallback_key_not_interpolated Arch64 demo "Total: {0}" "de"
           [VInt 3] {| readerCount := 0 |}).
  - reflexivity.
  - vm_compute. reflexivity.
Defined.

Lemma nested_reference_matches_direct_call_witness :
  exists sa sb,
    interpolateTranslations Arch64 demo "Value: " "de"
      [VString "i18n:account"] = Ok sa /\
    interpolateTranslations Arch64 demo "." "de"
      [VString "i18n:account"] = Ok sb /\
    interpolateTranslations Arch64 demo
      ("Value: " +:+ Regexp.token "0" +:+ ".") "de"
      [VString "i18n:account"] = Ok (sa +:+ "Konto" +:+ sb).
Proof.
  apply (nested_reference_matches_direct_call Arch64 demo "de"
           [VString "i18n:account"] "Value: " "0" "." "account" "Konto" 0
           {| readerCount := 0 |}).
  - reflexivity.
  - reflexivity.
  - discriminate.
  - reflexivity.
  - reflexivity.
  - vm_compute. discriminate.
  - vm_compute. reflexivity.
Defined.

Lemma equal_indices_replaced_alike_witness :
  interpolateTranslations Arch64 demo ("<" +:+ Regexp.token "1" +:+ ">")
    "en" [VInt 7; VString "x"] =
  interpolateTranslations Arch64 demo ("<" +:+ Regexp.token "001" +:+ ">")
    "en" [VInt 7; VString "x"].
Proof.
  apply (equal_indices_replaced_alike Arch64 demo "en"
           [VInt 7; VString "x"] "<" ">" "1" "001" 1).
  - reflexivity.
  - discriminate.
  - reflexivity.
  - discriminate.
  - reflexivity.
  - reflexivity.
  - simpl. lia.
  - vm_compute. discriminate.
Defined.

Lemma i18nTranslate_platform_independent_witness :
  i18nTranslate Arch32 demo "msg" "en" [VString "a"] =
    i18nTranslate Arch64 demo "msg" "en" [VString "a"].
Proof.
  apply (i18nTranslate_platform_independent demo "msg" "en" [VString "a"]).
  vm_compute. discriminate.
Defined.

Lemma empty_dictionary_returns_keys_witness :
  snd (Provision [] ∅ (configured "")) = None /\
  forall (p : arch) (key lang : string) (args : list any),
    snd (i18nTranslate p (fst (Provision [] ∅ (configured ""))) key lang
           args) = Ok (key, None).
Proof.
  apply (empty_dictionary_returns_keys [] ∅ (configured "")).
  left. reflexivity.
Defined.

Lemma loaded_text_is_returned_witness :
  snd (i18nTranslate Arch64
         (fst (Provision []
                 {["dict.json" :=
                     Opens (Value (JObject
                       ([("hello", JObject [("en", JString "Hi")])] ++
                        ("hello",
                         JObject ([("en", JString "Hello")] ++
                                  ("en", JString "Hello!") ::
                                  [("de", JString "Hallo")])) ::
                        [("bye", JObject [])])))]}
                 (configured "dict.json")))
         "hello" "en" []) = Ok ("Hello!", None).
Proof.
  apply (loaded_text_is_returned []
           {["dict.json" :=
               Opens (Value (JObject
                 ([("hello", JObject [("en", JString "Hi")])] ++
                  ("hello",
                   JObject ([("en", JString "Hello")] ++
                            ("en", JString "Hello!") ::
                            [("de", JString "Hallo")])) ::
                  [("bye", JObject [])])))]}
           (configured "dict.json") Arch64 "hello" "en" "Hello!"
           [("hello", JObject [("en", JString "Hi")])]
           [("bye", JObject [])]
           [("en", JString "Hello")] [("de", JString "Hallo")]).
  - discriminate.
  - vm_compute. reflexivity.
  - reflexivity.
  - reflexivity.
Defined.

Lemma UnmarshalCaddyfile_errors_witness :
  UnmarshalCaddyfile
    (Caddyfile.NewDispenser
       (on_line 1 ["i18n"; "{"] ++ on_line 2 ["dict_file"] ++
        on_line 3 ["}"]))
    CaddyModule_New =
    Returned (Caddyfile.WrongArgumentCount "dict_file" "Testfile" 2)
      CaddyModule_New
      {| Caddyfile.tokens :=
           (on_line 1 ["i18n"; "{"] ++ on_line 2 ["dict_file"] ++
            on_line 3 ["}"])%list;
         Caddyfile.cursor := 2; Caddyfile.nesting := 1 |} /\
  "dict_file" <> "{".
Proof.
  split; [vm_compute; reflexivity|].
  apply (UnmarshalCaddyfile_errors
           (Caddyfile.NewDispenser
              (on_line 1 ["i18n"; "{"] ++ on_line 2 ["dict_file"] ++
               on_line 3 ["}"]))
           {| Caddyfile.tokens :=
                (on_line 1 ["i18n"; "{"] ++ on_line 2 ["dict_file"] ++
                 on_line 3 ["}"])%list;
              Caddyfile.cursor := 2; Caddyfile.nesting := 1 |}
           CaddyModule_New CaddyModule_New
           (Caddyfile.WrongArgumentCount "dict_file" "Testfile" 2)).
  vm_compute. reflexivity.
Defined.

Lemma UnmarshalCaddyfile_last_directive_wins_witness :
  UnmarshalCaddyfile
    (Caddyfile.NewDispenser
       (block "i18n" ["/etc/caddy/en.json"; "/etc/caddy/dict.json"]))
    CaddyModule_New =
    Finished
      (with_DictFile
         (List.last ["/etc/caddy/en.json"; "/etc/caddy/dict.json"]
            (DictFile CaddyModule_New))
         CaddyModule_New)
      (at_end (block "i18n" ["/etc/caddy/en.json"; "/etc/caddy/dict.json"])).
Proof.
  apply (UnmarshalCaddyfile_last_directive_wins "i18n"
           ["/etc/caddy/en.json"; "/etc/caddy/dict.json"] CaddyModule_New).
  repeat constructor; discriminate.
Defined.

Lemma UnmarshalCaddyfile_unrecognized_property_witness :
  UnmarshalCaddyfile
    (Caddyfile.NewDispenser
       (opened "i18n" ["a.json"] ++
        token_on 3 "unknown_prop" :: on_line 3 ["value"] ++ on_line 4 ["}"]))
    CaddyModule_New =
    Returned
      (Caddyfile.UnrecognizedProperty "unknown_prop" "Testfile" 3)
      (with_DictFile (List.last ["a.json"] (DictFile CaddyModule_New))
         CaddyModule_New)
      {| Caddyfile.tokens :=
           (opened "i18n" ["a.json"] ++
            token_on 3 "unknown_prop" :: on_line 3 ["value"] ++
            on_line 4 ["}"])%list;
         Caddyfile.cursor := 2 + 2 * Z.of_nat (length ["a.json"]);
         Caddyfile.nesting := 1 |}.
Proof.
  apply (UnmarshalCaddyfile_unrecognized_property "i18n" ["a.json"]
           (token_on 3 "unknown_prop")
           (on_line 3 ["value"] ++ on_line 4 ["}"]) CaddyModule_New).
  - repeat constructor; discriminate.
  - simpl. lia.
  - discriminate.
  - discriminate.
  - discriminate.
Defined.

Lemma UnmarshalCaddyfile_missing_path_witness :
  UnmarshalCaddyfile
    (Caddyfile.NewDispenser
       (opened "i18n" [] ++ on_line 2 ["dict_file"] ++ on_line 3 ["}"]))
    CaddyModule_New =
    Returned (Caddyfile.WrongArgumentCount "dict_file" "Testfile" 2)
      (with_DictFile (List.last [] (DictFile CaddyModule_New))
         CaddyModule_New)
      {| Caddyfile.tokens :=
           (opened "i18n" [] ++ on_line 2 ["dict_file"] ++
            on_line 3 ["}"])%list;
         Caddyfile.cursor := 2 + 2 * Z.of_nat (length (@nil string));
         Caddyfile.nesting := 1 |}.
Proof.
  apply (UnmarshalCaddyfile_missing_path "i18n" [] 2 (on_line 3 ["}"])
           CaddyModule_New).
  - constructor.
  - simpl. lia.
  - simpl. lia.
Defined.

Lemma UnmarshalCaddyfile_extra_argument_witness :
  UnmarshalCaddyfile
    (Caddyfile.NewDispenser
       (opened "i18n" [] ++
        on_line 2 ["dict_file"; "a.json"; "extra"] ++ on_line 3 ["}"]))
    CaddyModule_New =
    Returned (Caddyfile.WrongArgumentCount "extra" "Testfile" 2)
      (with_DictFile "a.json" CaddyModule_New)
      {| Caddyfile.tokens :=
           (opened "i18n" [] ++
            on_line 2 ["dict_file"; "a.json"; "extra"] ++
            on_line 3 ["}"])%list;
         Caddyfile.cursor := 4 + 2 * Z.of_nat (length (@nil string));
         Caddyfile.nesting := 1 |}.
Proof.
  apply (UnmarshalCaddyfile_extra_argument "i18n" [] 2 "a.json" "extra"
           (on_line 3 ["}"]) CaddyModule_New).
  - constructor.
  - simpl. lia.
  - discriminate.
  - discriminate.
Defined.

(** ** The configuration blocks of the repository's tests *)

Example test_unmarshal_basic :
  UnmarshalCaddyfile
    (Caddyfile.NewDispenser (block "i18n" ["/path/to/dict.json"]))
    CaddyModule_New =
    Finished (with_DictFile "/path/to/dict.json" CaddyModule_New)
      (at_end (block "i18n" ["/path/to/dict.json"])).
Proof. vm_compute. reflexivity. Qed.

Example test_unmarshal_empty :
  UnmarshalCaddyfile (Caddyfile.NewDispenser (block "i18n" []))
    CaddyModule_New =
    Finished CaddyModule_New (at_end (block "i18n" [])).
Proof. vm_compute. reflexivity. Qed.

Example test_unmarshal_path_with_spaces :
  UnmarshalCaddyfile
    (Caddyfile.NewDispenser (block "i18n" ["/path/to/my translations.json"]))
    CaddyModule_New =
    Finished (with_DictFile "/path/to/my translations.json" CaddyModule_New)
      (at_end (block "i18n" ["/path/to/my translations.json"])).
Proof. vm_compute. reflexivity. Qed.

Example test_unmarshal_multiple_properties :
  exists d,
    UnmarshalCaddyfile
      (Caddyfile.NewDispenser
         (opened "i18n" ["/path/to/dict.json"] ++
          on_line 3 ["unknown_prop"; "value"] ++ on_line 4 ["}"]))
      CaddyModule_New =
      Returned (Caddyfile.UnrecognizedProperty "unknown_prop" "Testfile" 3)
        (with_DictFile "/path/to/dict.json" CaddyModule_New) d.
Proof. eexists. vm_compute. reflexivity. Qed.

(** Tokens the tests do not try: a block that is never closed, a brace
    where the path should be, and no block at all. *)
Example test_unmarshal_unclosed :
  exists d,
    UnmarshalCaddyfile
      (Caddyfile.NewDispenser (opened "i18n" ["a.json"])) CaddyModule_New =
      Finished (with_DictFile "a.json" CaddyModule_New) d.
Proof. eexists. vm_compute. reflexivity. Qed.

Example test_unmarshal_brace_as_path :
  exists d,
    UnmarshalCaddyfile
      (Caddyfile.NewDispenser
         (opened "i18n" [] ++ on_line 2 ["dict_file"; "{"] ++
          on_line 3 ["}"]))
      CaddyModule_New =
      Returned (Caddyfile.WrongArgumentCount "dict_file" "Testfile" 2)
        CaddyModule_New d.
Proof. eexists. vm_compute. reflexivity. Qed.

Example test_unmarshal_no_block :
  UnmarshalCaddyfile (Caddyfile.NewDispenser (on_line 1 ["i18n"]))
    CaddyModule_New =
    Finished CaddyModule_New (at_end (on_line 1 ["i18n"])).
Proof. vm_compute. reflexivity. Qed.
